(** * sarif-comparer: grouping, category resolution and comparison metrics

    A shallow embedding of the computational core of the SARIF comparison
    application:

    - [App.handleFileUpload], [App.resetComparison], [App.nextUploadIndex]
      and what the component renders  (App.tsx, the finding store and the
                                       three upload slots),
    - [ComparisonView.getCWEFromTags], [ComparisonView.getRuleTags],
      [ComparisonView.groupByCWE], [ComparisonView.allCWEs],
      [ComparisonView.summaryData], [ComparisonView.averageOverlaps],
      [ComparisonView.toggleCWE], the table of [exportToExcel] and the
      colours of the deltas           (components/ComparisonView.tsx),
    - [ResultsTable.ruleConfigurations], [ResultsTable.getCWEFromTags],
      [ResultsTable.severity], [ResultsTable.getEffectiveLevel],
      [ResultsTable.getSeverityWeight], [ResultsTable.getSeverityIcon],
      [ResultsTable.sortedEntries], [ResultsTable.cweGroups] and the rows
      of [exportToExcel]              (components/ResultsTable.tsx).

    Modelling conventions.
    - A JavaScript string is a [string]; every character stands for one
      code unit in the range 0..255.
    - A JavaScript object used as a dictionary is a [JsObject.t]: its own
      properties in [Object.entries] order, read through the prototype
      chain of an object literal.
    - The engine's arithmetic sits behind the interface [Arith], with two
      implementations: IEEE 754 binary64, on which the program runs, and
      exact rationals with [NaN], over which its properties are proved.
    - A [TypeError] is an explicit outcome of the [exc] monad. *)

From Stdlib Require Import String Ascii List ZArith QArith Qcanon Lia Floats Uint63.
From stdpp Require Import base list strings numbers sorting pretty.

Open Scope string_scope.
Open Scope list_scope.

(** ** Outcomes of code that may throw *)

Inductive exc (A : Type) : Type :=
| Ok (a : A)
| TypeError.
Arguments Ok {A} a.
Arguments TypeError {A}.

Definition exc_bind {A B} (m : exc A) (k : A -> exc B) : exc B :=
  match m with
  | Ok a => k a
  | TypeError => TypeError
  end.

Notation "'try!' x ':=' m 'in' k" := (exc_bind m (fun x => k))
  (at level 10, x name, m at level 100, k at level 200).

(** [xs.map(f)] where [f] may throw: the first throw aborts the loop. *)
Fixpoint exc_map {A B} (f : A -> exc B) (l : list A) : exc (list B) :=
  match l with
  | [] => Ok []
  | x :: l' => try! y := f x in try! ys := exc_map f l' in Ok (y :: ys)
  end.

(** [xs.reduce(f, init)] / [xs.forEach] threading a state, [f] may throw. *)
Fixpoint exc_fold {A S} (f : S -> A -> exc S) (l : list A) (s : S) : exc S :=
  match l with
  | [] => Ok s
  | x :: l' => try! s' := f s x in exc_fold f l' s'
  end.

(** ** JavaScript numbers *)

(** The arithmetic of the comparison engine, as an interface.  The engine
    runs on IEEE 754 binary64 ([binary64]); its properties are proved over
    exact arithmetic ([exact]), where a quotient is not rounded. *)
Class Arith (num : Type) : Type := {
  num_of_nat : nat -> num;                (* an array length, a literal *)
  num_add : num -> num -> num;
  num_sub : num -> num -> num;
  num_mul : num -> num -> num;
  num_div : num -> num -> num;
  num_nan : num                           (* [undefined] in arithmetic *)
}.

(** An exact number, or [NaN]. *)
Inductive number : Type :=
| Num (q : Qc)
| NaN.

Definition exact_op (f : Qc -> Qc -> Qc) (x y : number) : number :=
  match x, y with
  | Num a, Num b => Num (f a b)
  | _, _ => NaN
  end.

(** A zero divisor gives an infinity or [NaN] in JavaScript; the exact
    model folds both into [NaN].  The engine never divides by zero. *)
Definition exact_div (x y : number) : number :=
  match x, y with
  | Num a, Num b => if decide (b = 0%Qc) then NaN else Num (a / b)%Qc
  | _, _ => NaN
  end.

#[global] Instance exact : Arith number := {|
  num_of_nat n := Num (Qc_of_Z (Z.of_nat n));
  num_add := exact_op Qcplus;
  num_sub := exact_op Qcminus;
  num_mul := exact_op Qcmult;
  num_div := exact_div;
  num_nan := NaN
|}.

Definition binary64 : Arith float := {|
  num_of_nat n := PrimFloat.of_uint63 (Uint63.of_Z (Z.of_nat n));
  num_add := PrimFloat.add;
  num_sub := PrimFloat.sub;
  num_mul := PrimFloat.mul;
  num_div := PrimFloat.div;
  num_nan := PrimFloat.nan
|}.

(** ** JavaScript strings *)

Module JsString.

Definition is_digit (c : ascii) : bool :=
  (48 <=? nat_of_ascii c)%nat && (nat_of_ascii c <=? 57)%nat.

(** White space and line terminators of [String.prototype.trim] among the
    code units below 256. *)
Definition is_white (c : ascii) : bool :=
  let n := nat_of_ascii c in
  (n =? 9)%nat || (n =? 10)%nat || (n =? 11)%nat || (n =? 12)%nat ||
  (n =? 13)%nat || (n =? 32)%nat || (n =? 160)%nat.

(** [s.startsWith(p)] *)
Fixpoint startsWith (p s : string) : bool :=
  match p, s with
  | EmptyString, _ => true
  | String a p', String b s' => Ascii.eqb a b && startsWith p' s'
  | String _ _, EmptyString => false
  end.

Fixpoint drop (n : nat) (s : string) : string :=
  match n, s with
  | O, _ => s
  | S n', String _ s' => drop n' s'
  | S _, EmptyString => EmptyString
  end.

(** [s.replace(pat, rep)] with a string pattern: the first occurrence only.
    [rep] contains no [$], so it is inserted literally. *)
Fixpoint replace (pat rep s : string) : string :=
  if startsWith pat s then rep +:+ drop (String.length pat) s
  else match s with
       | EmptyString => EmptyString
       | String c s' => String c (replace pat rep s')
       end.

Fixpoint trimStart (s : string) : string :=
  match s with
  | String c s' => if is_white c then trimStart s' else s
  | EmptyString => EmptyString
  end.

Fixpoint trimEnd (s : string) : string :=
  match s with
  | EmptyString => EmptyString
  | String c s' =>
      match trimEnd s' with
      | EmptyString => if is_white c then EmptyString else String c EmptyString
      | t => String c t
      end
  end.

Definition trim (s : string) : string := trimEnd (trimStart s).

(** Longest prefix of decimal digits: what a greedy [\d+] consumes. *)
Fixpoint take_digits (s : string) : string :=
  match s with
  | String c s' => if is_digit c then String c (take_digits s') else EmptyString
  | EmptyString => EmptyString
  end.

(** The pattern [/CWE[-:](\d+)/] tried at the start of [s]; the result is
    capture group 1. *)
Definition match_CWE_here (s : string) : option string :=
  match s with
  | String c1 (String c2 (String c3 (String sep rest))) =>
      if Ascii.eqb c1 "C" && Ascii.eqb c2 "W" && Ascii.eqb c3 "E" &&
         (Ascii.eqb sep "-" || Ascii.eqb sep ":")
      then match take_digits rest with
           | EmptyString => None
           | d => Some d
           end
      else None
  | _ => None
  end.

(** [s.match(/CWE[-:](\d+)/)]: the leftmost position where the pattern
    matches; [None] is JavaScript's [null]. *)
Fixpoint match_CWE (s : string) : option string :=
  match match_CWE_here s with
  | Some d => Some d
  | None =>
      match s with
      | EmptyString => None
      | String _ s' => match_CWE s'
      end
  end.

(** Truthiness of a string value. *)
Definition truthy (s : string) : bool :=
  match s with EmptyString => false | _ => true end.

End JsString.

(** ** JavaScript objects used as dictionaries *)

Module JsObject.

(** The properties every object literal inherits from [Object.prototype].
    Each of them holds a function or an object: a truthy value that is
    not an array. *)
Definition prototype_names : list string :=
  [ "constructor"; "__defineGetter__"; "__defineSetter__"; "hasOwnProperty";
    "__lookupGetter__"; "__lookupSetter__"; "isPrototypeOf";
    "propertyIsEnumerable"; "toString"; "valueOf"; "__proto__";
    "toLocaleString" ].

Definition inherited (k : string) : bool :=
  existsb (String.eqb k) prototype_names.

Fixpoint digits_value (s : string) (acc : N) : option N :=
  match s with
  | EmptyString => Some acc
  | String c s' =>
      if JsString.is_digit c
      then digits_value s' (10 * acc + (N_of_ascii c - 48))%N
      else None
  end.

(** A key is an array index when it is the canonical decimal numeral of an
    integer below 2^32 - 1; such keys are enumerated first, in numeric
    order. *)
Definition array_index (k : string) : option N :=
  match k with
  | EmptyString => None
  | String "0" EmptyString => Some 0%N
  | String "0" _ => None
  | _ =>
      match digits_value k 0 with
      | Some n => if (n <? 4294967295)%N then Some n else None
      | None => None
      end
  end.

(** Does a new key [k] come before the existing key [k'] in property
    enumeration order? *)
Definition precedes (k k' : string) : bool :=
  match array_index k, array_index k' with
  | Some n, Some n' => (n <? n')%N
  | Some _, None => true
  | None, _ => false
  end.

Section Object.
Context {A : Type}.

(** Own enumerable properties, in [Object.entries] order. *)
Definition t : Type := list (string * A).

Definition empty : t := [].

Fixpoint own (o : t) (k : string) : option A :=
  match o with
  | [] => None
  | (k', v) :: o' => if String.eqb k k' then Some v else own o' k
  end.

(** What reading [o[k]] yields. *)
Inductive slot : Type :=
| Own (a : A)       (* an own property *)
| Inherited         (* a member of [Object.prototype] *)
| Undefined.        (* [undefined] *)

Definition get (o : t) (k : string) : slot :=
  match own o k with
  | Some a => Own a
  | None => if inherited k then Inherited else Undefined
  end.

(** Overwriting an own property keeps its position. *)
Fixpoint overwrite (o : t) (k : string) (v : A) : t :=
  match o with
  | [] => []
  | (k', v') :: o' =>
      if String.eqb k k' then (k', v) :: o' else (k', v') :: overwrite o' k v
  end.

(** A new property goes after the existing ones, except that array
    indices are kept first and in ascending order. *)
Fixpoint insert_new (o : t) (k : string) (v : A) : t :=
  match o with
  | [] => [(k, v)]
  | (k', v') :: o' =>
      if precedes k k' then (k, v) :: o else (k', v') :: insert_new o' k v
  end.

(** [o[k] = v]. Without an own property of that name, assigning to
    [__proto__] runs the inherited setter and defines no property; the
    program reaches that case only with a string value, which the
    setter ignores. *)
Definition set (o : t) (k : string) (v : A) : t :=
  match own o k with
  | Some _ => overwrite o k v
  | None => if String.eqb k "__proto__" then o else insert_new o k v
  end.

(** A property written in an object literal, [{ ...o, [k]: v }]: it is
    defined on the object itself, whatever the object inherits. *)
Definition define (o : t) (k : string) (v : A) : t :=
  match own o k with
  | Some _ => overwrite o k v
  | None => insert_new o k v
  end.

(** [Object.keys(o)], [Object.entries(o)], [Object.values(o)] *)
Definition keys (o : t) : list string := map fst o.
Definition entries (o : t) : list (string * A) := o.
Definition values (o : t) : list A := map snd o.

End Object.
Arguments t : clear implicits.
Arguments slot : clear implicits.

End JsObject.

(** ** SARIF data (types/sarif.ts) *)

Record Region := {
  startLine : N;
  startColumn : option N;
  endLine : option N;
  endColumn : option N
}.

Record PhysicalLocation := {
  artifactLocation : option string;   (* [artifactLocation?.uri] *)
  region : option Region
}.

Record Location := {
  physicalLocation : option PhysicalLocation
}.

Record Result := {
  ruleId : string;
  message : string;                   (* [message.text] *)
  locations : option (list Location);
  level : option string
}.

Record DefaultConfiguration := {
  dc_level : option string            (* [defaultConfiguration.level] *)
}.

Record Properties := {
  tags : option (list string)
}.

Record Rule := {
  id : string;
  name : option string;
  shortDescription : option string;   (* [shortDescription.text] *)
  defaultConfiguration : option DefaultConfiguration;
  properties : option Properties
}.

Record Run := {
  driver_name : string;               (* [tool.driver.name] *)
  rules : option (list Rule);         (* [tool.driver.rules] *)
  results : list Result
}.

Record SarifLog := {
  version : string;
  runs : list Run
}.

(** One uploaded dataset as the components receive it. *)
Record Dataset := {
  ds_results : JsObject.t (list Result);
  ds_run : Run
}.

(** The idiom [if (!o[k]) { o[k] = []; } o[k].push(x)], which both the
    finding store and the category aggregator use.  An inherited member is
    truthy, so it is not replaced, and it has no [push]. *)
Definition push_at {A} (o : JsObject.t (list A)) (k : string) (x : A)
  : exc (JsObject.t (list A)) :=
  let o1 :=
    match JsObject.get o k with
    | JsObject.Undefined => JsObject.set o k []
    | _ => o
    end in
  match JsObject.get o1 k with
  | JsObject.Own arr => Ok (JsObject.set o1 k (arr ++ [x]))
  | JsObject.Inherited => TypeError
  | JsObject.Undefined => TypeError
  end.

(** [arr[i] = v] on an array of optional slots; writing past the end
    extends the array with holes. *)
Definition array_set {A} (arr : list (option A)) (i : nat) (v : A)
  : list (option A) :=
  if (i <? length arr)%nat then <[i := Some v]> arr
  else arr ++ replicate (i - length arr) None ++ [Some v].

(** ** App.tsx *)

Module App.

(** The reducer of [handleFileUpload]. *)
Definition group_step (acc : JsObject.t (list Result)) (result : Result)
  : exc (JsObject.t (list Result)) :=
  push_at acc (ruleId result) result.

(** [const grouped = results.reduce(..., {})] *)
Definition grouped (results : list Result) : exc (JsObject.t (list Result)) :=
  exc_fold group_step results JsObject.empty.

(** The state [sarifs]: initially [[null, null, null]]. *)
Definition resetComparison : list (option Dataset) := [None; None; None].

Definition handleFileUpload (sarifData : SarifLog) (index : nat)
    (prev : list (option Dataset)) : exc (list (option Dataset)) :=
  match runs sarifData with
  | [] => TypeError                       (* [runs[0]] is undefined *)
  | run :: _ =>
      try! g := grouped (results run) in
      Ok (array_set prev index {| ds_results := g; ds_run := run |})
  end.











End App.

(** ** components/ComparisonView.tsx *)

Module ComparisonView.

Definition is_CWE_tag (tag : string) : bool :=
  JsString.startsWith "CWE:" tag || JsString.startsWith "CWE-" tag.

Definition getCWEFromTags (tags : list string) : option string :=
  match find is_CWE_tag tags with
  | None => None
  | Some cweTag =>
      if negb (JsString.truthy cweTag) then None
      else match JsString.match_CWE cweTag with
           | None => None
           | Some digits => Some ("CWE-" +:+ digits)
           end
  end.

Definition getRuleTags (run : Run) (ruleId : string) : list string :=
  let rule :=
    match rules run with
    | None => None
    | Some rs => find (fun r => String.eqb (id r) ruleId) rs
    end in
  match rule with
  | None => []
  | Some r =>
      match properties r with
      | None => []
      | Some p => match tags p with None => [] | Some ts => ts end
      end
  end.

Record Entry := { e_ruleId : string; e_items : list Result }.

Definition groupByCWE_step (run : Run) (cweGroups : JsObject.t (list Entry))
    (e : string * list Result) : exc (JsObject.t (list Entry)) :=
  let tags := getRuleTags run (fst e) in
  match getCWEFromTags tags with
  | None => Ok cweGroups
  | Some cwe =>
      if JsString.truthy cwe
      then push_at cweGroups cwe {| e_ruleId := fst e; e_items := snd e |}
      else Ok cweGroups
  end.

Definition groupByCWE (results : JsObject.t (list Result)) (run : Run)
  : exc (JsObject.t (list Entry)) :=
  exc_fold (groupByCWE_step run) (JsObject.entries results) JsObject.empty.

Definition cweGroups (sarifs : list Dataset)
  : exc (list (JsObject.t (list Entry))) :=
  exc_map (fun sarif => groupByCWE (ds_results sarif) (ds_run sarif)) sarifs.

Definition toolNames (sarifs : list Dataset) : list string :=
  map (fun sarif => driver_name (ds_run sarif)) sarifs.

(** [[...new Set(xs)]]: first occurrences, in order. *)
Fixpoint set_values (xs : list string) : list string :=
  match xs with
  | [] => []
  | x :: xs' =>
      x :: List.filter (fun y => negb (String.eqb x y)) (set_values xs')
  end.

(** [xs.sort()] on strings: ascending code unit order. *)
Definition sort (xs : list string) : list string := merge_sort String.le xs.

Definition allCWEs (groups : list (JsObject.t (list Entry))) : list string :=
  sort (set_values (flat_map JsObject.keys groups)).

(** [group[cwe]?.reduce((sum, { items }) => sum + items.length, 0) || 0] *)
Definition count (group : JsObject.t (list Entry)) (cwe : string) : exc nat :=
  match JsObject.get group cwe with
  | JsObject.Own es =>
      Ok (fold_left (fun sum e => sum + length (e_items e))%nat es 0%nat)
  | JsObject.Undefined => Ok 0%nat
  | JsObject.Inherited => TypeError       (* no [reduce] on that member *)
  end.

Section Engine.
Context {num : Type} {arith : Arith num}.

Definition num_index (xs : list num) (i : nat) : num :=
  match xs !! i with
  | Some x => x
  | None => num_nan
  end.

Definition count_index (xs : list nat) (i : nat) : num :=
  match xs !! i with
  | Some x => num_of_nat x
  | None => num_nan
  end.

Definition deltas_of (findings : list nat) : list num :=
  imap (fun i count => num_sub (num_of_nat count) (count_index findings i))
       (drop 1 findings).

Definition overlap (findings : list nat) (count : nat) : num :=
  match findings !! 0%nat with
  | None => num_nan
  | Some firstCount =>
      if (firstCount =? 0)%nat && (count =? 0)%nat then num_of_nat 0
      else
        let overlap := Nat.min count firstCount in
        let total := Nat.max count firstCount in
        if (total =? 0)%nat then num_of_nat 0
        else num_mul (num_div (num_of_nat overlap) (num_of_nat total))
                     (num_of_nat 100)
  end.

Definition overlaps_of (findings : list nat) : list num :=
  map (overlap findings) (drop 1 findings).

Record Row := {
  cwe : string;
  findings : list nat;
  deltas : list num;
  overlaps : list num
}.

Definition summaryRow (groups : list (JsObject.t (list Entry)))
    (cwe : string) : exc Row :=
  try! findings := exc_map (fun group => count group cwe) groups in
  Ok {| cwe := cwe;
        findings := findings;
        deltas := deltas_of findings;
        overlaps := overlaps_of findings |}.

Definition summaryData (groups : list (JsObject.t (list Entry)))
  : exc (list Row) :=
  exc_map (summaryRow groups) (allCWEs groups).

Definition averageOverlaps (summaryData : list Row) : list num :=
  match summaryData with
  | [] => []                              (* [undefined || []] *)
  | row0 :: _ =>
      imap (fun index _ =>
              let sum :=
                fold_left
                  (fun acc data => num_add acc (num_index (overlaps data) index))
                  summaryData (num_of_nat 0) in
              if (0 <? length summaryData)%nat
              then num_div sum (num_of_nat (length summaryData))
              else num_of_nat 0)
           (overlaps row0)
  end.

(** The whole component body, from the [sarifs] prop. *)
Definition compare (sarifs : list Dataset) : exc (list Row * list num) :=
  try! groups := cweGroups sarifs in
  try! rows := summaryData groups in
  Ok (rows, averageOverlaps rows).

End Engine.
Arguments Row num : clear implicits.

(** [setExpandedCWEs(prev => ({ ...prev, [cwe]: !prev[cwe] }))] *)
Definition toggleCWE (cwe : string) (prev : JsObject.t bool) : JsObject.t bool :=
  let flipped :=
    match JsObject.get prev cwe with
    | JsObject.Own b => negb b
    | JsObject.Inherited => false
    | JsObject.Undefined => true
    end in
  JsObject.define prev cwe flipped.

(** [const isExpanded = expandedCWEs[cwe]], as a condition. *)
Definition isExpanded (expandedCWEs : JsObject.t bool) (cwe : string) : bool :=
  match JsObject.get expandedCWEs cwe with
  | JsObject.Own b => b
  | JsObject.Inherited => true
  | JsObject.Undefined => false
  end.

(** [xs.join(sep)] *)
Fixpoint join (sep : string) (xs : list string) : string :=
  match xs with
  | [] => EmptyString
  | [x] => x
  | x :: xs' => x +:+ sep +:+ join sep xs'
  end.

(** [toolNames[i]] inside a template string. *)
Definition tool_at (toolNames : list string) (i : nat) : string :=
  match toolNames !! i with
  | Some name => name
  | None => "undefined"
  end.

Definition headers (toolNames : list string) : list string :=
  map (fun name => name +:+ " Findings") toolNames.

Definition deltaHeaders (toolNames : list string) : list string :=
  imap (fun i name => "Delta " +:+ tool_at toolNames i +:+ " - " +:+ name)
       (drop 1 toolNames).

Definition overlapHeaders (toolNames : list string) : list string :=
  map (fun name => "Overlap " +:+ tool_at toolNames 0 +:+ " - " +:+ name +:+ " %")
      (drop 1 toolNames).

(** An array length that is negative makes [Array(n)] throw. *)
Inductive sheet (A : Type) : Type :=
| Sheet (a : A)
| RangeError.
Arguments Sheet {A} a.
Arguments RangeError {A}.

Section ExportSheet.
Context {num : Type}.

(** [o.toFixed(1)] *)
Variable toFixed1 : num -> string.

Inductive cell : Type :=
| CString (s : string)
| CCount (n : nat)
| CNumber (x : num)
| CObject (o : JsObject.t string).

(** [{ 'Tools': tools, ...Array(n).fill('') }]: the indices of the spread
    array become properties. *)
Definition title_object (tools : string) (n : nat) : JsObject.t string :=
  fold_left (fun o i => JsObject.define o (pretty (N.of_nat i)) EmptyString)
            (seq 0 n) (JsObject.define JsObject.empty "Tools" tools).

Definition percent (o : num) : cell := CString (toFixed1 o +:+ "%").

(** The array [data] of [exportToExcel]. *)
Definition exportData (toolNames : list string) (summaryData : list (Row num))
    (averageOverlaps : list num) : sheet (list (list cell)) :=
  let headers := headers toolNames in
  let deltaHeaders := deltaHeaders toolNames in
  let overlapHeaders := overlapHeaders toolNames in
  let filler :=
    (Z.of_nat (length headers) + Z.of_nat (length deltaHeaders) +
     Z.of_nat (length overlapHeaders) - 1)%Z in
  if (filler <? 0)%Z then RangeError
  else
    Sheet
      ([ [CObject (title_object (join " vs " toolNames) (Z.to_nat filler))];
         [CObject JsObject.empty];
         CString "CWE" ::
           map CString (headers ++ deltaHeaders ++ overlapHeaders) ] ++
       map (fun row =>
              CString (cwe row) ::
                map CCount (findings row) ++
                map CNumber (deltas row) ++
                map percent (overlaps row))
           summaryData ++
       [ [CString EmptyString];
         CString "Average" ::
           replicate (length headers) (CString EmptyString) ++
           replicate (length deltaHeaders) (CString EmptyString) ++
           map percent averageOverlaps ]).

(** [colWidths]: one width per column of the sheet. *)
Definition colWidths (toolNames : list string) : list nat :=
  15%nat :: replicate (length (headers toolNames) +
                       length (deltaHeaders toolNames) +
                       length (overlapHeaders toolNames)) 15%nat.

(** The last column of the merged title cell, [ws['!merges'][0].e.c]. *)
Definition merge_end (toolNames : list string) : nat :=
  (length (headers toolNames) + length (deltaHeaders toolNames) +
   length (overlapHeaders toolNames))%nat.

End ExportSheet.
Arguments cell num : clear implicits.

(** The colour of a delta: red for an increase, green for a decrease. *)
Inductive tone : Type :=
| Red
| Green
| Gray.

(** [delta > 0 ? red : delta < 0 ? green : gray] on a cell of the summary
    table; every comparison with [NaN] is false. *)
Definition delta_tone (delta : number) : tone :=
  match delta with
  | Num q => if decide (0 < q)%Qc then Red
             else if decide (q < 0)%Qc then Green else Gray
  | NaN => Gray
  end.

(** [{delta > 0 ? '+' : ''}] *)
Definition delta_sign (delta : number) : string :=
  match delta with
  | Num q => if decide (0 < q)%Qc then "+" else ""
  | NaN => ""
  end.

(** What the detail panel shows after count [i]: nothing after the last
    count, otherwise [findingCounts[i + 1] - count] in the colour of its
    sign. *)
Definition panel_delta (findingCounts : list nat) (i count : nat)
  : option (tone * number) :=
  if (Z.of_nat i <? Z.of_nat (length findingCounts) - 1)%Z then
    match findingCounts !! S i with
    | Some next =>
        Some (if (count <? next)%nat then Red
              else if (next <? count)%nat then Green else Gray,
              num_sub (num_of_nat next) (num_of_nat count))
    | None => Some (Gray, NaN)
    end
  else None.

Definition panel_deltas (findingCounts : list nat)
  : list (option (tone * number)) :=
  imap (panel_delta findingCounts) findingCounts.

End ComparisonView.

(** ** components/ResultsTable.tsx *)

Module ResultsTable.

(** [c.toLowerCase()] on one code unit below 256. *)
Definition lower_char (c : ascii) : ascii :=
  let n := nat_of_ascii c in
  if ((65 <=? n) && (n <=? 90))%nat then ascii_of_nat (n + 32)
  else if ((192 <=? n) && (n <=? 222) && negb (n =? 215))%nat
       then ascii_of_nat (n + 32)
       else c.

Fixpoint toLowerCase (s : string) : string :=
  match s with
  | EmptyString => EmptyString
  | String c s' => String (lower_char c) (toLowerCase s')
  end.

(** A value that is either a string or a member inherited from
    [Object.prototype] (a function or an object). *)
Inductive value : Type :=
| VString (s : string)
| VInherited.

Definition ruleConfigurations_step (acc : JsObject.t string) (rule : Rule)
  : JsObject.t string :=
  if JsString.truthy (id rule) then
    match defaultConfiguration rule with
    | Some dc =>
        match dc_level dc with
        | Some l => if JsString.truthy l then JsObject.set acc (id rule) l else acc
        | None => acc
        end
    | None => acc
    end
  else acc.

(** [run?.tool.driver.rules?.reduce(..., {}) || {}] *)
Definition ruleConfigurations (run : option Run) : JsObject.t string :=
  match run with
  | None => JsObject.empty
  | Some r =>
      match rules r with
      | None => JsObject.empty
      | Some rs => fold_left ruleConfigurations_step rs JsObject.empty
      end
  end.

(** [ruleConfigurations[ruleId] || 'none'] *)
Definition configured_or_none (run : option Run) (ruleId : string) : value :=
  match JsObject.get (ruleConfigurations run) ruleId with
  | JsObject.Own l => if JsString.truthy l then VString l else VString "none"
  | JsObject.Inherited => VInherited
  | JsObject.Undefined => VString "none"
  end.

(** [items[0]?.level || ruleConfigurations[ruleId] || 'none'], the
    expression of [sortedEntries], of [exportToExcel] and of the summary
    table. *)
Definition severity (run : option Run) (ruleId : string) (items : list Result)
  : value :=
  match items with
  | first :: _ =>
      match level first with
      | Some l => if JsString.truthy l then VString l
                  else configured_or_none run ruleId
      | None => configured_or_none run ruleId
      end
  | [] => configured_or_none run ruleId
  end.

Definition getEffectiveLevel (run : option Run) (result : Result) : exc string :=
  let configured :=
    match JsObject.get (ruleConfigurations run) (ruleId result) with
    | JsObject.Own l => if JsString.truthy l then Ok (toLowerCase l) else Ok "none"
    | JsObject.Inherited => TypeError     (* no [toLowerCase] on that member *)
    | JsObject.Undefined => Ok "none"
    end in
  match level result with
  | Some l => if JsString.truthy l then Ok (toLowerCase l) else configured
  | None => configured
  end.

Definition getRuleTags (run : option Run) (ruleId : string) : list string :=
  let rule :=
    match run with
    | None => None
    | Some r =>
        match rules r with
        | None => None
        | Some rs => find (fun r => String.eqb (id r) ruleId) rs
        end
    end in
  match rule with
  | None => []
  | Some r =>
      match properties r with
      | None => []
      | Some p => match tags p with None => [] | Some ts => ts end
      end
  end.

Definition getCWEFromTags (tags : list string) : option string :=
  match find ComparisonView.is_CWE_tag tags with
  | None => None
  | Some cweTag =>
      if negb (JsString.truthy cweTag) then None
      else Some (JsString.trim (JsString.replace "CWE:" "CWE-" cweTag))
  end.

Definition getSeverityWeight (severity : value) : exc nat :=
  match severity with
  | VInherited => TypeError               (* no [toLowerCase] on that member *)
  | VString s =>
      let l := toLowerCase s in
      Ok (if String.eqb l "error" then 0
          else if String.eqb l "warning" then 1
          else if String.eqb l "info" then 2
          else if String.eqb l "note" then 3
          else 4)%nat
  end.

(** The comparator of [sortedEntries]. *)
Definition compareEntries (run : option Run) (a b : string * list Result)
  : exc Z :=
  try! wa := getSeverityWeight (severity run (fst a) (snd a)) in
  try! wb := getSeverityWeight (severity run (fst b) (snd b)) in
  Ok (Z.of_nat wa - Z.of_nat wb)%Z.

(** [xs.sort(cmp)]: a stable comparison sort; a throwing comparator aborts
    it, and arrays of fewer than two elements never call the comparator. *)
Section Sort.
Context {A : Type} (cmp : A -> A -> exc Z).

Fixpoint sort_insert (x : A) (l : list A) : exc (list A) :=
  match l with
  | [] => Ok [x]
  | y :: l' =>
      try! c := cmp x y in
      if (c <=? 0)%Z then Ok (x :: l)
      else try! r := sort_insert x l' in Ok (y :: r)
  end.

Fixpoint sort_by (l : list A) : exc (list A) :=
  match l with
  | [] => Ok []
  | x :: l' => try! r := sort_by l' in sort_insert x r
  end.
End Sort.

Definition sortedEntries (run : option Run) (results : JsObject.t (list Result))
  : exc (list (string * list Result)) :=
  sort_by (compareEntries run) (JsObject.entries results).

Definition totalResults (results : JsObject.t (list Result)) : nat :=
  fold_left (fun sum items => sum + length items)%nat (JsObject.values results) 0%nat.

(** [xs.join(', ')] *)
Fixpoint join (xs : list string) : string :=
  match xs with
  | [] => ""
  | [x] => x
  | x :: xs' => x +:+ ", " +:+ join xs'
  end.

(** One line of the per-rule summary, as [exportToExcel] builds it. *)
Record SummaryRow := {
  sr_ruleId : string;
  sr_cwe : string;
  sr_tags : string;
  sr_count : nat;
  sr_severity : value
}.

Definition summaryRow (run : option Run) (e : string * list Result) : SummaryRow :=
  let tags := getRuleTags run (fst e) in
  {| sr_ruleId := fst e;
     sr_cwe := match getCWEFromTags tags with
               | Some cwe => if JsString.truthy cwe then cwe else ""
               | None => ""
               end;
     sr_tags := join tags;
     sr_count := length (snd e);
     sr_severity := severity run (fst e) (snd e) |}.

Definition exportData (run : option Run) (results : JsObject.t (list Result))
  : exc (list SummaryRow) :=
  try! sorted := sortedEntries run results in
  Ok (map (summaryRow run) sorted ++
      [ {| sr_ruleId := "TOTAL"; sr_cwe := ""; sr_tags := "";
           sr_count := totalResults results; sr_severity := VString "" |} ]).

(** The reducer of [cweGroups], the grouping of the CWE tab. *)
Definition cweGroups_step (run : option Run)
    (acc : JsObject.t (list ComparisonView.Entry)) (e : string * list Result)
  : exc (JsObject.t (list ComparisonView.Entry)) :=
  let tags := getRuleTags run (fst e) in
  match getCWEFromTags tags with
  | None => Ok acc
  | Some cwe =>
      if JsString.truthy cwe
      then push_at acc cwe {| ComparisonView.e_ruleId := fst e;
                              ComparisonView.e_items := snd e |}
      else Ok acc
  end.

Definition cweGroups (run : option Run) (results : JsObject.t (list Result))
  : exc (JsObject.t (list ComparisonView.Entry)) :=
  try! sorted := sortedEntries run results in
  exc_fold (cweGroups_step run) sorted JsObject.empty.

(** The icon next to a level. *)
Inductive icon : Type :=
| XCircle_red
| AlertTriangle_yellow
| Info_blue
| Info_gray.

Definition getSeverityIcon (level : option string) : icon :=
  let normalizedLevel :=
    match level with
    | Some l => let l' := toLowerCase l in
                if JsString.truthy l' then l' else "none"
    | None => "none"
    end in
  if String.eqb normalizedLevel "error" then XCircle_red
  else if String.eqb normalizedLevel "warning" then AlertTriangle_yellow
  else if String.eqb normalizedLevel "info" then Info_blue
  else if String.eqb normalizedLevel "note" then Info_blue
  else Info_gray.

(** [setExpandedCWEs(prev => ({ ...prev, [cwe]: !prev[cwe] }))] *)
Definition toggleCWE (cwe : string) (prev : JsObject.t bool) : JsObject.t bool :=
  ComparisonView.toggleCWE cwe prev.

(** [groupedResults.reduce((sum, { items }) => sum + items.length, 0)], the
    number shown next to a category of the CWE tab. *)
Definition totalFindings (groupedResults : list ComparisonView.Entry) : nat :=
  fold_left (fun sum e => sum + length (ComparisonView.e_items e))%nat
            groupedResults 0%nat.

End ResultsTable.

(** * Specification vocabulary *)

(** ** Occurrences of the pattern [CWE[-:](\d+)] in a string *)

Fixpoint digits_only (d : string) : bool :=
  match d with
  | EmptyString => true
  | String c d' => JsString.is_digit c && digits_only d'
  end.

(** A digit run: one or more decimal digits. *)
Definition digit_run (d : string) : Prop :=
  d <> EmptyString /\ digits_only d = true.

(** The text after a maximal digit run does not go on with a digit. *)
Definition stops_digits (rest : string) : Prop :=
  match rest with
  | EmptyString => True
  | String c _ => JsString.is_digit c = false
  end.

(** [s] is [pre], then [CWE], a separator [-] or [:], the maximal digit
    run [d], and some remainder. *)
Definition CWE_match_at (s pre d : string) : Prop :=
  exists sep rest,
    (sep = "-"%char \/ sep = ":"%char) /\
    s = pre +:+ String "C" (String "W" (String "E" (String sep (d +:+ rest)))) /\
    digit_run d /\ stops_digits rest.

(** The match a regular-expression search reports: the leftmost one. *)
Definition CWE_leftmost_match (s d : string) : Prop :=
  exists pre,
    CWE_match_at s pre d /\
    forall pre' d', CWE_match_at s pre' d' ->
                    (String.length pre <= String.length pre')%nat.

Definition CWE_no_match (s : string) : Prop :=
  forall pre d, ~ CWE_match_at s pre d.

(** ** The finding store *)

(** The findings of rule [k], in input order. *)
Definition by_rule (k : string) (fs : list Result) : list Result :=
  List.filter (fun f => String.eqb (ruleId f) k) fs.

(** Number of findings held by a store. *)
Definition total_size {A} (o : JsObject.t (list A)) : nat :=
  sum_list (map length (JsObject.values o)).

(** ** The category resolver, in the words of its contract *)

Definition has_CWE_prefix (t : string) : Prop :=
  exists rest, t = "CWE:" +:+ rest \/ t = "CWE-" +:+ rest.

Definition rule_list (run : Run) : list Rule := default [] (rules run).

Definition rule_tags (r : Rule) : list string :=
  default [] (properties r ≫= tags).

(** [x] is the first element of [l] that satisfies [P]. *)
Definition first_such {A} (P : A -> Prop) (l : list A) (x : A) : Prop :=
  exists l1 l2, l = l1 ++ x :: l2 /\ P x /\ Forall (fun y => ~ P y) l1.

Definition none_such {A} (P : A -> Prop) (l : list A) : Prop :=
  Forall (fun y => ~ P y) l.

(** The rule a [ruleId] denotes: the first one of the rule list with that
    id. *)
Definition first_rule (run : Run) (rid : string) (r : Rule) : Prop :=
  first_such (fun r' => id r' = rid) (rule_list run) r.

Definition no_rule (run : Run) (rid : string) : Prop :=
  none_such (fun r' => id r' = rid) (rule_list run).

(** The four outcomes of category resolution. *)
Inductive resolves (run : Run) (rid : string) : option string -> Prop :=
| resolves_no_rule :
    no_rule run rid ->
    resolves run rid None
| resolves_no_tag r :
    first_rule run rid r ->
    none_such has_CWE_prefix (rule_tags r) ->
    resolves run rid None
| resolves_no_match r t :
    first_rule run rid r ->
    first_such has_CWE_prefix (rule_tags r) t ->
    CWE_no_match t ->
    resolves run rid None
| resolves_match r t d :
    first_rule run rid r ->
    first_such has_CWE_prefix (rule_tags r) t ->
    CWE_leftmost_match t d ->
    resolves run rid (Some ("CWE-" +:+ d)).

(** The resolver as the comparison path composes it. *)
Definition category_of (run : Run) (rid : string) : option string :=
  ComparisonView.getCWEFromTags (ComparisonView.getRuleTags run rid).

(** ** The category aggregator and the comparison engine *)

Definition entry_size (e : ComparisonView.Entry) : nat :=
  length (ComparisonView.e_items e).

(** Findings of category [c] in one aggregated dataset; 0 without an entry. *)
Definition group_count (g : JsObject.t (list ComparisonView.Entry)) (c : string)
  : nat :=
  match JsObject.own g c with
  | Some es => sum_list (map entry_size es)
  | None => 0%nat
  end.

(** Every entry of every group belongs to a rule resolved to the group's
    category, and no category shadows an inherited member. *)
Definition categorized (run : Run) (g : JsObject.t (list ComparisonView.Entry))
  : Prop :=
  forall c es, (c, es) ∈ JsObject.entries g ->
    JsObject.inherited c = false /\
    forall e, e ∈ es -> category_of run (ComparisonView.e_ruleId e) = Some c.

Definition plain_keys {A} (g : JsObject.t A) : Prop :=
  Forall (fun k => JsObject.inherited k = false) (JsObject.keys g).

(** A dataset with the findings of one rule removed. *)
Definition without_rule (rid : string) (d : Dataset) : Dataset :=
  {| ds_results :=
       List.filter (fun e => negb (String.eqb (fst e) rid)) (ds_results d);
     ds_run := ds_run d |}.

Definition row_of {num : Type} {arith : Arith num}
    (groups : list (JsObject.t (list ComparisonView.Entry)))
    (c : string) : ComparisonView.Row num :=
  let findings := map (fun g => group_count g c) groups in
  {| ComparisonView.cwe := c;
     ComparisonView.findings := findings;
     ComparisonView.deltas := ComparisonView.deltas_of findings;
     ComparisonView.overlaps := ComparisonView.overlaps_of findings |}.

(** Strictly ascending in the lexicographic order of code units. *)
Definition ascending (cs : list string) : Prop :=
  StronglySorted (fun a b => String.compare a b = Lt) cs.





(** ** Rule-level severity *)

(** The default level rule [r] contributes for [rid]: [r] has that id, the
    id is not empty, and its [defaultConfiguration.level] is present and not
    empty. *)
Definition default_level (rid : string) (r : Rule) : option string :=
  if String.eqb (id r) rid && JsString.truthy (id r) then
    match defaultConfiguration r with
    | Some dc =>
        match dc_level dc with
        | Some l => if JsString.truthy l then Some l else None
        | None => None
        end
    | None => None
    end
  else None.

(** The configured level of [rid]: that of the last rule contributing one
    (the rule itself when ids are unique). *)
Definition configured_level (run : option Run) (rid : string) : option string :=
  last (omap (default_level rid) (default [] (run ≫= rules))).

(** The level a finding carries itself. *)
Definition own_level (f : Result) : option string :=
  match level f with
  | Some l => if JsString.truthy l then Some l else None
  | None => None
  end.

(** Severity in words: the first finding's own level, else the configured
    level of the rule id, else [none]. *)
Definition severity_spec (run : option Run) (rid : string) (items : list Result)
  : string :=
  match head items ≫= own_level with
  | Some l => l
  | None => default "none" (configured_level run rid)
  end.

(** ** Characters that [trim] keeps *)

Fixpoint no_white (s : string) : bool :=
  match s with
  | EmptyString => true
  | String c s' => negb (JsString.is_white c) && no_white s'
  end.

(** ** Sample data *)

Definition finding (rid : string) (lvl : option string) : Result :=
  {| ruleId := rid; message := "finding"; locations := None; level := lvl |}.

Definition rule (rid : string) (lvl : option string) (ts : list string) : Rule :=
  {| id := rid; name := None; shortDescription := None;
     defaultConfiguration := Some {| dc_level := lvl |};
     properties := Some {| tags := Some ts |} |}.

(** A run of one scanner: three rules with a category, one without, and the
    given number of findings for each of the three. *)
Definition sample_run (n79 n89 n22 : nat) : Run :=
  {| driver_name := "scanner";
     rules := Some [ rule "xss" (Some "error") ["security"; "CWE-79"];
                     rule "sqli" (Some "warning") ["CWE:89"];
                     rule "path" None ["CWE-22: Path Traversal"];
                     rule "style" None ["readability"] ];
     results := replicate n79 (finding "xss" None) ++
                replicate n89 (finding "sqli" None) ++
                replicate n22 (finding "path" None) ++
                [finding "style" (Some "note")] |}.

(** The dataset an upload of [run] stores. *)
Definition upload (run : Run) : Dataset :=
  {| ds_results := match App.grouped (results run) with
                   | Ok g => g
                   | TypeError => JsObject.empty
                   end;
     ds_run := run |}.

Definition groups_of (sarifs : list Dataset)
  : list (JsObject.t (list ComparisonView.Entry)) :=
  match ComparisonView.cweGroups sarifs with
  | Ok groups => groups
  | TypeError => []
  end.

Definition rows_of (sarifs : list Dataset) : list (ComparisonView.Row number) :=
  match ComparisonView.summaryData (groups_of sarifs) with
  | Ok rows => rows
  | TypeError => []
  end.

(** Counts (4,2), (3,3) and (0,5). *)
Definition sample_overlap : list Dataset :=
  [upload (sample_run 4 3 0); upload (sample_run 2 3 5)].

(** Counts (5,8) and (8,5). *)
Definition sample_delta : list Dataset :=
  [upload (sample_run 5 8 0); upload (sample_run 8 5 0)].


(** A run whose only rule has the empty id and a default level. *)
Definition sample_anonymous : Run :=
  {| driver_name := "scanner";
     rules := Some [rule "" (Some "error") []];
     results := [finding "" None] |}.

(** The rows as the engine computes them, in binary64. *)
Definition rows64_of (sarifs : list Dataset) : list (ComparisonView.Row float) :=
  match ComparisonView.summaryData (arith := binary64) (groups_of sarifs) with
  | Ok rows => rows
  | TypeError => []
  end.

(** Counts (2,3,0) of one category in three datasets. *)
Definition sample_three : list Dataset :=
  [upload (sample_run 2 0 0); upload (sample_run 3 0 0); upload (sample_run 0 0 0)].

(** ** Vocabulary of the further properties *)

(** The entry the aggregator files for a rule group. *)
Definition to_entry (e : string * list Result) : ComparisonView.Entry :=
  {| ComparisonView.e_ruleId := fst e; ComparisonView.e_items := snd e |}.

(** Does the rule of this group resolve to category [c]? *)
Definition in_category (run : Run) (c : string) (e : string * list Result)
  : bool :=
  bool_decide (category_of run (fst e) = Some c).

(** The groups of category [c], in the order of the finding store. *)
Definition category_entries (run : Run) (c : string)
    (results : JsObject.t (list Result)) : list ComparisonView.Entry :=
  map to_entry (List.filter (in_category run c) (JsObject.entries results)).

(** Number of findings of a dataset whose rule has a category. *)
Definition categorized_findings (d : Dataset) : nat :=
  sum_list
    (map (fun e => match category_of (ds_run d) (fst e) with
                   | Some _ => length (snd e)
                   | None => 0%nat
                   end)
         (JsObject.entries (ds_results d))).

(** Size of a dictionary of lists, each element weighed by [w]. *)
Definition weighted_size {A} (w : A -> nat) (o : JsObject.t (list A)) : nat :=
  sum_list (map (fun kv => sum_list (map w (snd kv))) o).

(** The count a row holds for dataset [j]. *)
Definition count_at {num : Type} (j : nat) (row : ComparisonView.Row num) : nat :=
  default 0%nat (ComparisonView.findings row !! j).

(** Rank of a severity word, whatever its case: error, warning, info, note,
    then anything else. *)
Definition severity_rank (s : string) : nat :=
  let l := ResultsTable.toLowerCase s in
  if decide (l = "error") then 0
  else if decide (l = "warning") then 1
  else if decide (l = "info") then 2
  else if decide (l = "note") then 3
  else 4.

(** Rank of a rule group of the store. *)
Definition entry_rank (run : option Run) (e : string * list Result) : nat :=
  severity_rank (severity_spec run (fst e) (snd e)).

(** [r] is [l] sorted by ascending weight, elements of equal weight in
    the order they have in [l]. *)
Definition stably_sorted {A} (w : A -> nat) (l r : list A) : Prop :=
  r ≡ₚ l /\
  StronglySorted (fun a b => w a <= w b) r /\
  forall v : nat,
    List.filter (fun x => Nat.eqb (w x) v) r =
    List.filter (fun x => Nat.eqb (w x) v) l.

(** A run whose findings come in no order of severity. *)
Definition sample_shuffled : Run :=
  {| driver_name := "scanner";
     rules := rules (sample_run 0 0 0);
     results := [ finding "style" (Some "note"); finding "path" None;
                  finding "sqli" None; finding "xss" None;
                  finding "sqli" (Some "error") ] |}.

(** The category the single-file table shows for a rule. *)
Definition table_category (run : option Run) (rid : string) : option string :=
  ResultsTable.getCWEFromTags (ResultsTable.getRuleTags run rid).

Definition in_table_category (run : option Run) (c : string)
    (e : string * list Result) : bool :=
  bool_decide (table_category run (fst e) = Some c).

(** The icon that goes with a sort weight. *)
Definition icon_of_rank (n : nat) : ResultsTable.icon :=
  match n with
  | 0 => ResultsTable.XCircle_red
  | 1 => ResultsTable.AlertTriangle_yellow
  | 2 | 3 => ResultsTable.Info_blue
  | _ => ResultsTable.Info_gray
  end.



(** Number of findings of a store whose rule has a category in the
    single-file table. *)
Definition table_categorized_findings (run : option Run)
    (g : JsObject.t (list Result)) : nat :=
  sum_list
    (map (fun e => match table_category run (fst e) with
                   | Some _ => length (snd e)
                   | None => 0%nat
                   end)
         (JsObject.entries g)).

(** The colour that goes with two consecutive counts. *)
Definition tone_of_counts (a b : nat) : ComparisonView.tone :=
  if decide (a < b) then ComparisonView.Red
  else if decide (b < a) then ComparisonView.Green
  else ComparisonView.Gray.

(** * String lemmas *)

Lemma append_nil_l (s : string) : "" +:+ s = s.
Proof. reflexivity. Qed.

Lemma append_cons (c : ascii) (s t : string) :
  String c s +:+ t = String c (s +:+ t).
Proof. reflexivity. Qed.

Lemma append_nil_r (s : string) : s +:+ "" = s.
Proof. induction s as [|c s IH]; [done|]. by rewrite append_cons, IH. Qed.

Lemma take_digits_app (d rest : string) :
  digits_only d = true -> stops_digits rest ->
  JsString.take_digits (d +:+ rest) = d.
Proof.
  induction d as [|c d IH]; intros Hd Hrest.
  - rewrite append_nil_l. destruct rest as [|c rest]; [done|].
    simpl in *. by rewrite Hrest.
  - rewrite append_cons. simpl in *.
    apply andb_prop in Hd as [Hc Hd]. rewrite Hc. f_equal. by apply IH.
Qed.

Lemma take_digits_split (s : string) :
  exists rest,
    s = JsString.take_digits s +:+ rest /\
    digits_only (JsString.take_digits s) = true /\ stops_digits rest.
Proof.
  induction s as [|c s (rest & Hs & Hd & Hrest)].
  - by exists "".
  - simpl. destruct (JsString.is_digit c) eqn:Hc.
    + exists rest. rewrite append_cons. simpl. rewrite Hc. by rewrite <- Hs.
    + exists (String c s). by rewrite append_nil_l.
Qed.

Lemma match_CWE_here_Some (s d : string) :
  JsString.match_CWE_here s = Some d <-> CWE_match_at s "" d.
Proof.
  split.
  - destruct s as [|c1 [|c2 [|c3 [|sep rest]]]]; try done. simpl.
    destruct (Ascii.eqb_spec c1 "C"); [subst|done].
    destruct (Ascii.eqb_spec c2 "W"); [subst|done].
    destruct (Ascii.eqb_spec c3 "E"); [subst|done]. simpl.
    destruct (_ || _) eqn:Hsep; [|done].
    destruct (take_digits_split rest) as (rest' & Hrest & Hd & Hstop).
    destruct (JsString.take_digits rest) as [|c0 d0] eqn:Htd; [done|].
    intros [= <-]. exists sep, rest'. rewrite append_nil_l, <- Hrest.
    repeat split; [|done..].
    apply orb_prop in Hsep as [H|H]; apply Ascii.eqb_eq in H; auto.
  - intros (sep & rest & Hsep & -> & [Hne Hd] & Hstop).
    rewrite append_nil_l. simpl.
    assert (Ascii.eqb sep "-" || Ascii.eqb sep ":" = true) as ->.
    { by destruct Hsep as [-> | ->]. }
    rewrite take_digits_app by done. by destruct d.
Qed.

Lemma CWE_match_at_cons (c : ascii) (s pre d : string) :
  CWE_match_at (String c s) (String c pre) d <-> CWE_match_at s pre d.
Proof.
  split; intros (sep & rest & Hsep & Hs & Hd); exists sep, rest;
    (split; [done|split; [|done]]).
  - rewrite append_cons in Hs. by injection Hs.
  - rewrite append_cons. by f_equal.
Qed.

Lemma CWE_match_at_pre (c : ascii) (s : string) (c' : ascii) (pre d : string) :
  CWE_match_at (String c s) (String c' pre) d -> c' = c.
Proof.
  intros (sep & rest & _ & Hs & _). rewrite append_cons in Hs. by injection Hs.
Qed.

Lemma CWE_match_at_nil (pre d : string) : ~ CWE_match_at "" pre d.
Proof. intros (sep & rest & _ & Hs & _). by destruct pre. Qed.

(** The matcher finds the leftmost match, or rightly reports none. *)
Lemma match_CWE_sound (s : string) :
  match JsString.match_CWE s with
  | Some d => CWE_leftmost_match s d
  | None => CWE_no_match s
  end.
Proof.
  induction s as [|c s IH].
  - simpl. intros pre d. apply CWE_match_at_nil.
  - cbn [JsString.match_CWE].
    destruct (JsString.match_CWE_here (String c s)) as [d|] eqn:Hhere.
    + apply match_CWE_here_Some in Hhere. exists "". split; [done|].
      intros; simpl; lia.
    + destruct (JsString.match_CWE s) as [d|].
      * destruct IH as (pre & Hat & Hleft). exists (String c pre). split.
        { by apply CWE_match_at_cons. }
        intros [|c' pre'] d' Hat'.
        { apply match_CWE_here_Some in Hat'. congruence. }
        pose proof (CWE_match_at_pre _ _ _ _ _ Hat') as ->.
        apply CWE_match_at_cons, Hleft in Hat'. simpl; lia.
      * intros [|c' pre'] d' Hat'.
        { apply match_CWE_here_Some in Hat'. congruence. }
        pose proof (CWE_match_at_pre _ _ _ _ _ Hat') as ->.
        by apply CWE_match_at_cons, IH in Hat'.
Qed.

Lemma match_CWE_None (s : string) :
  JsString.match_CWE s = None <-> CWE_no_match s.
Proof.
  pose proof (match_CWE_sound s) as H. split.
  - intros Heq. by rewrite Heq in H.
  - intros Hno. destruct (JsString.match_CWE s) as [d|]; [|done].
    destruct H as (pre & Hat & _). by apply Hno in Hat.
Qed.

Lemma CWE_match_at_fun (s pre d1 d2 : string) :
  CWE_match_at s pre d1 -> CWE_match_at s pre d2 -> d1 = d2.
Proof.
  revert s. induction pre as [|c pre IH]; intros s H1 H2.
  - apply match_CWE_here_Some in H1, H2. congruence.
  - destruct s as [|c' s]; [by apply CWE_match_at_nil in H1|].
    pose proof (CWE_match_at_pre _ _ _ _ _ H1) as <-.
    apply CWE_match_at_cons in H1, H2. eauto.
Qed.

Lemma CWE_match_at_same_length (s pre1 pre2 d1 d2 : string) :
  CWE_match_at s pre1 d1 -> CWE_match_at s pre2 d2 ->
  String.length pre1 = String.length pre2 -> pre1 = pre2.
Proof.
  revert s pre2. induction pre1 as [|c pre1 IH]; intros s [|c2 pre2] H1 H2 Hlen;
    try done.
  destruct s as [|c' s]; [by apply CWE_match_at_nil in H1|].
  pose proof (CWE_match_at_pre _ _ _ _ _ H1) as ->.
  pose proof (CWE_match_at_pre _ _ _ _ _ H2) as ->.
  apply CWE_match_at_cons in H1, H2. f_equal. eapply IH; eauto.
Qed.

Lemma CWE_leftmost_match_fun (s d1 d2 : string) :
  CWE_leftmost_match s d1 -> CWE_leftmost_match s d2 -> d1 = d2.
Proof.
  intros (pre1 & H1 & L1) (pre2 & H2 & L2).
  assert (pre1 = pre2) as <-.
  { eapply CWE_match_at_same_length; eauto.
    apply L1 in H2. apply L2 in H1. lia. }
  eapply CWE_match_at_fun; eauto.
Qed.

Lemma match_CWE_Some (s d : string) :
  JsString.match_CWE s = Some d <-> CWE_leftmost_match s d.
Proof.
  pose proof (match_CWE_sound s) as H. split.
  - intros Heq. by rewrite Heq in H.
  - intros Hd. destruct (JsString.match_CWE s) as [d'|].
    + f_equal. eapply CWE_leftmost_match_fun; eauto.
    + destruct Hd as (pre & Hat & _). by apply H in Hat.
Qed.

(** * Dictionary lemmas *)

Section ObjectFacts.
Context {A : Type}.
Implicit Types (o : JsObject.t A) (k : string) (v : A).

Lemma own_elem_of o k v : JsObject.own o k = Some v -> (k, v) ∈ o.
Proof.
  induction o as [|[k' v'] o IH]; simpl; [done|].
  destruct (String.eqb_spec k k') as [->|Hne].
  - intros Hv. injection Hv as Hv. rewrite Hv. left.
  - intros H. right. auto.
Qed.

Lemma own_None_keys o k : JsObject.own o k = None <-> k ∉ JsObject.keys o.
Proof.
  induction o as [|[k' v'] o IH]; simpl.
  - split; [|done]. intros _ H. inversion H.
  - destruct (String.eqb_spec k k') as [->|Hne].
    + split; [done|]. intros H. exfalso. apply H. left.
    + rewrite IH, not_elem_of_cons. split; [by intros H|by intros [_ H]].
Qed.

Lemma elem_of_own o k v :
  NoDup (JsObject.keys o) -> (k, v) ∈ o -> JsObject.own o k = Some v.
Proof.
  induction o as [|[k' v'] o IH]; simpl; intros Hnd Hin.
  - inversion Hin.
  - apply NoDup_cons in Hnd as [Hk' Hnd].
    apply elem_of_cons in Hin as [[= -> ->]|Hin].
    + by rewrite String.eqb_refl.
    + destruct (String.eqb_spec k k') as [->|Hne]; [|auto].
      destruct Hk'. change k' with (fst (k', v)). by apply list_elem_of_fmap_2.
Qed.

Lemma own_overwrite o k v k' :
  JsObject.own (JsObject.overwrite o k v) k' =
  if decide (k' = k)
  then match JsObject.own o k with Some _ => Some v | None => None end
  else JsObject.own o k'.
Proof.
  induction o as [|[k1 v1] o IH]; simpl.
  - by case_decide.
  - destruct (String.eqb_spec k k1) as [->|Hne]; simpl.
    + destruct (String.eqb_spec k' k1) as [->|Hne'].
      * by rewrite decide_True.
      * by rewrite decide_False.
    + destruct (String.eqb_spec k' k1) as [->|Hne'].
      * by rewrite decide_False.
      * apply IH.
Qed.

Lemma keys_overwrite o k v :
  JsObject.keys (JsObject.overwrite o k v) = JsObject.keys o.
Proof.
  induction o as [|[k1 v1] o IH]; simpl; [done|].
  destruct (String.eqb k k1); simpl; [done|]. by f_equal.
Qed.

Lemma elem_of_overwrite o k v k' v' :
  (k', v') ∈ JsObject.overwrite o k v ->
  (k', v') ∈ o \/ (k' = k /\ v' = v).
Proof.
  induction o as [|[k1 v1] o IH]; simpl; [by left|].
  destruct (String.eqb_spec k k1) as [->|Hne].
  - intros [[= -> ->]|H]%elem_of_cons; [by right|]. left. by right.
  - intros [[= -> ->]|H]%elem_of_cons; [left; left|].
    destruct (IH H) as [?|?]; [left; by right|by right].
Qed.

Lemma insert_new_perm o k v : JsObject.insert_new o k v ≡ₚ (k, v) :: o.
Proof.
  induction o as [|[k1 v1] o IH]; simpl; [done|].
  destruct (JsObject.precedes k k1); [done|].
  rewrite IH. apply perm_swap.
Qed.

Lemma own_insert_new o k v k' :
  JsObject.own o k = None ->
  JsObject.own (JsObject.insert_new o k v) k' =
  if decide (k' = k) then Some v else JsObject.own o k'.
Proof.
  induction o as [|[k1 v1] o IH]; simpl.
  - intros _. destruct (String.eqb_spec k' k); by case_decide.
  - destruct (String.eqb_spec k k1) as [->|Hne]; [done|]. intros Hown.
    destruct (JsObject.precedes k k1); simpl.
    + destruct (String.eqb_spec k' k); by case_decide.
    + destruct (String.eqb_spec k' k1) as [->|Hne1].
      * by rewrite decide_False.
      * by apply IH.
Qed.

Lemma overwrite_insert_new o k v w :
  JsObject.own o k = None ->
  JsObject.overwrite (JsObject.insert_new o k v) k w = JsObject.insert_new o k w.
Proof.
  induction o as [|[k1 v1] o IH]; simpl.
  - by rewrite String.eqb_refl.
  - destruct (String.eqb_spec k k1) as [->|Hne]; [done|]. intros Hown.
    destruct (JsObject.precedes k k1); simpl.
    + by rewrite String.eqb_refl.
    + destruct (String.eqb_spec k k1); [done|]. f_equal. by apply IH.
Qed.

Lemma inherited_proto : JsObject.inherited "__proto__" = true.
Proof. reflexivity. Qed.

End ObjectFacts.

(** ** The push idiom *)

Section PushAt.
Context {A : Type}.
Implicit Types (o : JsObject.t (list A)) (k : string) (x : A).

Lemma push_at_own o k x arr :
  JsObject.own o k = Some arr ->
  push_at o k x = Ok (JsObject.overwrite o k (arr ++ [x])).
Proof.
  intros Hown. unfold push_at, JsObject.get, JsObject.set. by rewrite !Hown.
Qed.

Lemma push_at_inherited o k x :
  JsObject.own o k = None -> JsObject.inherited k = true ->
  push_at o k x = TypeError.
Proof.
  intros Hown Hinh. unfold push_at, JsObject.get.
  rewrite Hown, Hinh. cbv zeta. by rewrite Hown.
Qed.

Lemma push_at_new o k x :
  JsObject.own o k = None -> JsObject.inherited k = false ->
  push_at o k x = Ok (JsObject.insert_new o k [x]).
Proof.
  intros Hown Hinh.
  assert (String.eqb k "__proto__" = false) as Hproto.
  { apply String.eqb_neq. intros ->. by rewrite inherited_proto in Hinh. }
  assert (JsObject.set o k [] = JsObject.insert_new o k []) as Hset.
  { unfold JsObject.set. by rewrite Hown, Hproto. }
  unfold push_at, JsObject.get. rewrite Hown, Hinh, Hset. cbv zeta.
  rewrite own_insert_new, decide_True by done.
  unfold JsObject.set. rewrite own_insert_new, decide_True by done.
  by rewrite overwrite_insert_new.
Qed.

(** The push succeeds unless the key names an inherited member that no own
    property shadows. *)
Lemma push_at_cases o k x :
  (exists arr, JsObject.own o k = Some arr /\
               push_at o k x = Ok (JsObject.overwrite o k (arr ++ [x]))) \/
  (JsObject.own o k = None /\ JsObject.inherited k = false /\
   push_at o k x = Ok (JsObject.insert_new o k [x])) \/
  (JsObject.own o k = None /\ JsObject.inherited k = true /\
   push_at o k x = TypeError).
Proof.
  destruct (JsObject.own o k) as [arr|] eqn:Hown.
  - left. eauto using push_at_own.
  - right. destruct (JsObject.inherited k) eqn:Hinh.
    + right. eauto using push_at_inherited.
    + left. eauto using push_at_new.
Qed.

Lemma push_at_lookup o k x o' k' :
  push_at o k x = Ok o' ->
  JsObject.own o' k' =
  if decide (k' = k) then Some (default [] (JsObject.own o k) ++ [x])
  else JsObject.own o k'.
Proof.
  destruct (push_at_cases o k x)
    as [(arr & Hown & ->)|[(Hown & _ & ->)|(_ & _ & ->)]]; [| |done];
    intros [= <-].
  - rewrite own_overwrite, Hown. by case_decide.
  - rewrite own_insert_new, Hown by done. by case_decide.
Qed.

Lemma push_at_elem_of o k x o' k' v' :
  push_at o k x = Ok o' -> (k', v') ∈ o' ->
  (k', v') ∈ o \/ (k' = k /\ exists arr, v' = arr ++ [x] /\
                    (arr = [] \/ (k, arr) ∈ o)).
Proof.
  destruct (push_at_cases o k x)
    as [(arr & Hown & ->)|[(Hown & _ & ->)|(_ & _ & ->)]]; [| |done];
    intros [= <-] Hin.
  - apply elem_of_overwrite in Hin as [?|[-> ->]]; [by left|].
    right. split; [done|]. exists arr. eauto using own_elem_of.
  - rewrite insert_new_perm in Hin.
    apply elem_of_cons in Hin as [[= -> ->]|?]; [|by left].
    right. split; [done|]. exists []. auto.
Qed.

Lemma push_at_keys o k x o' :
  push_at o k x = Ok o' ->
  JsObject.keys o' ≡ₚ
    match JsObject.own o k with
    | Some _ => JsObject.keys o
    | None => k :: JsObject.keys o
    end.
Proof.
  destruct (push_at_cases o k x)
    as [(arr & Hown & ->)|[(Hown & _ & ->)|(_ & _ & ->)]]; [| |done];
    intros [= <-]; rewrite Hown.
  - by rewrite keys_overwrite.
  - unfold JsObject.keys. by rewrite insert_new_perm.
Qed.

Lemma push_at_NoDup o k x o' :
  push_at o k x = Ok o' ->
  NoDup (JsObject.keys o) -> NoDup (JsObject.keys o').
Proof.
  intros Hpush Hnd. rewrite (push_at_keys _ _ _ _ Hpush).
  destruct (JsObject.own o k) eqn:Hown; [done|].
  apply NoDup_cons. split; [|done]. by apply own_None_keys.
Qed.

End PushAt.

(** * The finding store *)

Section Store.

Lemma total_size_overwrite {A} (o : JsObject.t (list A)) k arr v :
  JsObject.own o k = Some arr ->
  (total_size (JsObject.overwrite o k v) + length arr =
   total_size o + length v)%nat.
Proof.
  unfold total_size, JsObject.values.
  induction o as [|[k1 v1] o IH]; simpl; [done|].
  destruct (String.eqb_spec k k1) as [->|Hne]; simpl.
  - intros [= ->]. lia.
  - intros H. specialize (IH H). lia.
Qed.

Lemma total_size_insert_new {A} (o : JsObject.t (list A)) k v :
  total_size (JsObject.insert_new o k v) = (length v + total_size o)%nat.
Proof.
  unfold total_size, JsObject.values.
  by rewrite (insert_new_perm o k v).
Qed.

Lemma push_at_total_size {A} (o o' : JsObject.t (list A)) k x :
  push_at o k x = Ok o' -> total_size o' = S (total_size o).
Proof.
  destruct (push_at_cases o k x)
    as [(arr & Hown & ->)|[(Hown & _ & ->)|(_ & _ & ->)]]; [| |done];
    intros [= <-].
  - pose proof (total_size_overwrite o k arr (arr ++ [x]) Hown) as H.
    rewrite length_app in H. simpl in H. lia.
  - by rewrite total_size_insert_new.
Qed.

(** Folding the reducer from any accumulator. *)
Lemma group_fold_lookup fs : forall acc g,
  exc_fold App.group_step fs acc = Ok g ->
  forall k,
    JsObject.own g k =
    match JsObject.own acc k with
    | Some arr => Some (arr ++ by_rule k fs)
    | None => match by_rule k fs with [] => None | l => Some l end
    end.
Proof.
  induction fs as [|f fs IH]; intros acc g; simpl.
  - intros [= ->] k. destruct (JsObject.own g k); [|done].
    by rewrite app_nil_r.
  - unfold App.group_step at 1.
    destruct (push_at acc (ruleId f) f) as [acc'|] eqn:Hpush; [|done]. simpl.
    intros Hfold k. rewrite (IH _ _ Hfold k).
    rewrite (push_at_lookup _ _ _ _ k Hpush).
    destruct (String.eqb_spec (ruleId f) k) as [<-|Hne].
    + rewrite decide_True by done.
      destruct (JsObject.own acc (ruleId f)); simpl; [|done].
      by rewrite <- app_assoc.
    + by rewrite decide_False by done.
Qed.

Lemma group_fold_total_size fs : forall acc g,
  exc_fold App.group_step fs acc = Ok g ->
  total_size g = (total_size acc + length fs)%nat.
Proof.
  induction fs as [|f fs IH]; intros acc g; simpl.
  - intros [= <-]. lia.
  - unfold App.group_step at 1.
    destruct (push_at acc (ruleId f) f) as [acc'|] eqn:Hpush; [|done]. simpl.
    intros Hfold. rewrite (IH _ _ Hfold), (push_at_total_size _ _ _ _ Hpush). lia.
Qed.

Lemma group_fold_NoDup fs : forall acc g,
  exc_fold App.group_step fs acc = Ok g ->
  NoDup (JsObject.keys acc) -> NoDup (JsObject.keys g).
Proof.
  induction fs as [|f fs IH]; intros acc g; simpl.
  - by intros [= <-].
  - unfold App.group_step at 1.
    destruct (push_at acc (ruleId f) f) as [acc'|] eqn:Hpush; [|done]. simpl.
    eauto using push_at_NoDup.
Qed.

(** The fold succeeds exactly when no finding names an inherited member
    that the accumulator does not shadow. *)
Lemma group_fold_Ok fs : forall acc,
  (exists g, exc_fold App.group_step fs acc = Ok g) <->
  Forall (fun f => JsObject.inherited (ruleId f) = false \/
                   is_Some (JsObject.own acc (ruleId f))) fs.
Proof.
  induction fs as [|f fs IH]; intros acc; simpl.
  - split; [by constructor|eauto].
  - unfold App.group_step at 1. rewrite Forall_cons.
    destruct (push_at_cases acc (ruleId f) f)
      as [(arr & Hown & Hpush)|[(Hown & Hinh & Hpush)|(Hown & Hinh & Hpush)]];
      rewrite Hpush; simpl.
    + rewrite IH. split.
      * intros Hall. split; [right; by rewrite Hown|].
        eapply Forall_impl; [exact Hall|]. intros f' [?|Hs]; [by left|].
        rewrite own_overwrite in Hs. case_decide as Hk; [|by right].
        right. by rewrite Hk, Hown.
      * intros [_ Hall]. eapply Forall_impl; [exact Hall|].
        intros f' [?|Hs]; [by left|]. right.
        rewrite own_overwrite. case_decide as Hk; [|done]. by rewrite Hown.
    + rewrite IH. split.
      * intros Hall. split; [by left|].
        eapply Forall_impl; [exact Hall|]. intros f' [?|Hs]; [by left|].
        rewrite own_insert_new in Hs by done.
        case_decide as Hk; [|by right]. left. by rewrite Hk.
      * intros [_ Hall]. eapply Forall_impl; [exact Hall|].
        intros f' [?|Hs]; [by left|]. right.
        rewrite own_insert_new by done. by case_decide.
    + split; [by intros [g ?]|]. intros [[?|Hs] _]; [congruence|].
      rewrite Hown in Hs. by destruct Hs.
Qed.

(** The store is defined exactly on inputs free of inherited names. *)
Lemma grouped_Ok (fs : list Result) :
  (exists g, App.grouped fs = Ok g) <->
  Forall (fun f => JsObject.inherited (ruleId f) = false) fs.
Proof.
  unfold App.grouped. rewrite group_fold_Ok. apply Forall_proper; [|done].
  intros f. split; [|by left]. intros [?|Hs]; [done|]. by destruct Hs.
Qed.

(** On those inputs, the groups partition the findings: the group of a
    rule is the sub-sequence of its findings, no rule has two groups, and
    the sizes add up to the input length. *)
Lemma grouped_partition (fs : list Result) (g : JsObject.t (list Result)) :
  App.grouped fs = Ok g ->
  NoDup (JsObject.keys g) /\
  total_size g = length fs /\
  (forall k items,
      (k, items) ∈ JsObject.entries g <-> items = by_rule k fs /\ items <> []) /\
  (forall f, f ∈ fs -> (ruleId f, by_rule (ruleId f) fs) ∈ JsObject.entries g).
Proof.
  intros Hg. unfold App.grouped in Hg.
  assert (NoDup (JsObject.keys g)) as Hnd.
  { eapply group_fold_NoDup; [exact Hg|]. constructor. }
  pose proof (group_fold_lookup _ _ _ Hg) as Hlook. simpl in Hlook.
  assert (forall k items,
    (k, items) ∈ JsObject.entries g <-> items = by_rule k fs /\ items <> [])
    as Hent.
  { intros k items. split.
    - intros Hin%(elem_of_own _ _ _ Hnd). rewrite Hlook in Hin.
      destruct (by_rule k fs) eqn:Hby; [done|]. by injection Hin as <-.
    - intros [-> Hne]. apply own_elem_of. rewrite Hlook.
      by destruct (by_rule k fs). }
  split; [done|]. split.
  { by rewrite (group_fold_total_size _ _ _ Hg). }
  split; [done|].
  intros f Hf. apply Hent. split; [done|].
  intros Hnil.
  assert (f ∈ by_rule (ruleId f) fs) as Hin.
  { unfold by_rule. apply list_elem_of_In, filter_In.
    split; [by apply list_elem_of_In|apply String.eqb_refl]. }
  rewrite Hnil in Hin. inversion Hin.
Qed.

(** No key of a store names an inherited member. *)
Lemma grouped_plain_keys (fs : list Result) (g : JsObject.t (list Result)) :
  App.grouped fs = Ok g -> plain_keys g.
Proof.
  intros Hg. apply list.Forall_forall. intros k Hk.
  apply list_elem_of_fmap in Hk as ([k' items] & -> & Hin).
  destruct (grouped_partition _ _ Hg) as (_ & _ & Hent & _).
  apply Hent in Hin as [-> Hne].
  assert (Forall (fun f => JsObject.inherited (ruleId f) = false) fs) as Hfs.
  { apply grouped_Ok. eauto. }
  unfold by_rule in Hne.
  destruct (List.filter _ fs) as [|f l] eqn:Hfilter; [done|].
  assert (In f (List.filter (fun f => String.eqb (ruleId f) k') fs)) as Hf.
  { rewrite Hfilter. by left. }
  apply filter_In in Hf as [Hf Heq]. apply String.eqb_eq in Heq.
  rewrite list.Forall_forall in Hfs. simpl. rewrite <- Heq.
  by apply Hfs, list_elem_of_In.
Qed.

End Store.

(** * The category resolver *)

Section FirstSuch.
Context {A : Type}.

Lemma find_first (f : A -> bool) (l : list A) (x : A) :
  find f l = Some x ->
  first_such (fun y => f y = true) l x.
Proof.
  induction l as [|y l IH]; simpl; [done|].
  destruct (f y) eqn:Hy.
  - intros [= ->]. exists [], l. repeat split; [done|constructor].
  - intros (l1 & l2 & -> & Hx & Hl1)%IH. exists (y :: l1), l2.
    repeat split; [done|]. constructor; [congruence|done].
Qed.

Lemma find_none_such (f : A -> bool) (l : list A) :
  find f l = None -> none_such (fun y => f y = true) l.
Proof.
  induction l as [|y l IH]; simpl; [constructor|].
  destruct (f y) eqn:Hy; [done|]. intros H.
  constructor; [congruence|by apply IH].
Qed.

Lemma first_such_iff (P Q : A -> Prop) (l : list A) (x : A) :
  (forall y, P y <-> Q y) -> first_such P l x -> first_such Q l x.
Proof.
  intros HPQ (l1 & l2 & -> & Hx & Hl1). exists l1, l2.
  repeat split; [by apply HPQ|].
  eapply Forall_impl; [exact Hl1|]. intros y Hy HQ. by apply Hy, HPQ.
Qed.

Lemma none_such_iff (P Q : A -> Prop) (l : list A) :
  (forall y, P y <-> Q y) -> none_such P l -> none_such Q l.
Proof.
  intros HPQ Hl. eapply Forall_impl; [exact Hl|].
  intros y Hy HQ. by apply Hy, HPQ.
Qed.

Lemma first_such_fun (P : A -> Prop) (l : list A) (x x' : A) :
  first_such P l x -> first_such P l x' -> x = x'.
Proof.
  intros (l1 & l2 & -> & Hx & Hl1) (l1' & l2' & Heq & Hx' & Hl1').
  revert l1' Heq Hl1'. induction Hl1 as [|y l1 Hy Hl1 IH]; intros [|y' l1'] Heq Hl1'.
  - by injection Heq.
  - injection Heq as -> _. apply Forall_cons in Hl1' as [Hy' _]. by destruct Hy'.
  - injection Heq as -> _. by destruct Hy.
  - injection Heq as -> Heq. apply Forall_cons in Hl1' as [_ Hl1']. eauto.
Qed.

Lemma first_none_such (P : A -> Prop) (l : list A) (x : A) :
  first_such P l x -> none_such P l -> False.
Proof.
  intros (l1 & l2 & -> & Hx & _) Hl.
  apply Forall_app in Hl as [_ Hl]. apply Forall_cons in Hl as [Hx' _]. auto.
Qed.

Lemma find_first_such (f : A -> bool) (l : list A) (x : A) :
  first_such (fun y => f y = true) l x -> find f l = Some x.
Proof.
  intros H. destruct (find f l) as [x'|] eqn:Hfind.
  - f_equal. eapply first_such_fun; [|exact H]. by apply find_first.
  - apply find_none_such in Hfind. destruct (first_none_such _ _ _ H Hfind).
Qed.

End FirstSuch.

Lemma startsWith_spec (p s : string) :
  JsString.startsWith p s = true <-> exists rest, s = p +:+ rest.
Proof.
  revert s. induction p as [|a p IH]; intros s; simpl.
  - split; [eauto|done].
  - destruct s as [|b s].
    + split; [done|]. by intros [rest ?].
    + rewrite andb_true_iff, IH. split.
      * intros [->%Ascii.eqb_eq [rest ->]]. by exists rest.
      * intros [rest Heq]. rewrite append_cons in Heq. injection Heq as -> ->.
        split; [apply Ascii.eqb_refl|eauto].
Qed.

Lemma is_CWE_tag_spec (t : string) :
  ComparisonView.is_CWE_tag t = true <-> has_CWE_prefix t.
Proof.
  unfold ComparisonView.is_CWE_tag, has_CWE_prefix.
  rewrite orb_true_iff, !startsWith_spec. split.
  - intros [[rest ->]|[rest ->]]; exists rest; auto.
  - intros [rest [->| ->]]; [left|right]; by exists rest.
Qed.

Lemma is_CWE_tag_truthy (t : string) :
  ComparisonView.is_CWE_tag t = true -> JsString.truthy t = true.
Proof. by destruct t. Qed.

(** What [getRuleTags] reads. *)
Lemma getRuleTags_spec (run : Run) (rid : string) :
  (no_rule run rid /\ ComparisonView.getRuleTags run rid = []) \/
  (exists r, first_rule run rid r /\
             ComparisonView.getRuleTags run rid = rule_tags r).
Proof.
  unfold ComparisonView.getRuleTags, no_rule, first_rule, rule_list.
  destruct (rules run) as [rs|]; simpl; [|left; split; [constructor|done]].
  destruct (find _ rs) as [r|] eqn:Hfind.
  - right. exists r. split.
    + eapply first_such_iff; [|by apply find_first]. intros y. apply String.eqb_eq.
    + unfold rule_tags. destruct (properties r) as [p|]; [|done].
      simpl. by destruct (tags p).
  - left. split; [|done].
    eapply none_such_iff; [|by apply find_none_such]. intros y. apply String.eqb_eq.
Qed.

(** What [getCWEFromTags] computes from a tag list. *)
Lemma getCWEFromTags_spec (tags : list string) :
  (none_such has_CWE_prefix tags /\ ComparisonView.getCWEFromTags tags = None) \/
  (exists t, first_such has_CWE_prefix tags t /\
             ComparisonView.getCWEFromTags tags =
               String.append "CWE-" <$> JsString.match_CWE t).
Proof.
  unfold ComparisonView.getCWEFromTags.
  destruct (find _ tags) as [t|] eqn:Hfind.
  - right. exists t. apply find_first in Hfind as Hfirst. split.
    + eapply first_such_iff; [|exact Hfirst]. apply is_CWE_tag_spec.
    + destruct Hfirst as (_ & _ & _ & Ht & _).
      rewrite (is_CWE_tag_truthy _ Ht). simpl.
      by destruct (JsString.match_CWE t).
  - left. split; [|done].
    eapply none_such_iff; [|by apply find_none_such]. apply is_CWE_tag_spec.
Qed.

Lemma getCWEFromTags_first (tags : list string) (t : string) :
  first_such has_CWE_prefix tags t ->
  ComparisonView.getCWEFromTags tags =
    String.append "CWE-" <$> JsString.match_CWE t.
Proof.
  intros Ht. destruct (getCWEFromTags_spec tags) as [[Hnone _]|(t' & Ht' & ->)].
  - destruct (first_none_such _ _ _ Ht Hnone).
  - by rewrite (first_such_fun _ _ _ _ Ht Ht').
Qed.

(** Every resolved category has the normalized form. *)
Lemma getCWEFromTags_form (tags : list string) (c : string) :
  ComparisonView.getCWEFromTags tags = Some c ->
  exists d, c = "CWE-" +:+ d /\ digit_run d.
Proof.
  destruct (getCWEFromTags_spec tags) as [[_ ->]|(t & _ & ->)]; [done|].
  destruct (JsString.match_CWE t) as [d|] eqn:Hm; [|done].
  intros [= <-]. exists d. split; [done|].
  apply match_CWE_Some in Hm as (pre & (sep & rest & _ & _ & Hd & _) & _). done.
Qed.

Lemma CWE_key_not_inherited (d : string) :
  JsObject.inherited ("CWE-" +:+ d) = false.
Proof. reflexivity. Qed.

Lemma CWE_key_truthy (d : string) : JsString.truthy ("CWE-" +:+ d) = true.
Proof. reflexivity. Qed.

Lemma resolves_category_of (run : Run) (rid : string) :
  resolves run rid (category_of run rid).
Proof.
  unfold category_of.
  destruct (getRuleTags_spec run rid) as [[Hno ->]|(r & Hr & ->)].
  - by apply resolves_no_rule.
  - destruct (getCWEFromTags_spec (rule_tags r)) as [[Hnone ->]|(t & Ht & ->)].
    + by eapply resolves_no_tag.
    + destruct (JsString.match_CWE t) as [d|] eqn:Hm; simpl.
      * eapply resolves_match; eauto. by apply match_CWE_Some.
      * eapply resolves_no_match; eauto. by apply match_CWE_None.
Qed.

Lemma resolves_fun (run : Run) (rid : string) (c1 c2 : option string) :
  resolves run rid c1 -> resolves run rid c2 -> c1 = c2.
Proof.
  assert (forall r r' t t', first_rule run rid r -> first_rule run rid r' ->
            first_such has_CWE_prefix (rule_tags r) t ->
            first_such has_CWE_prefix (rule_tags r') t' -> t = t') as Htag.
  { intros r r' t t' Hr Hr' Ht Ht'.
    rewrite (first_such_fun _ _ _ _ Hr Hr') in Ht. eapply first_such_fun; eauto. }
  assert (forall r r' t, first_rule run rid r -> first_rule run rid r' ->
            first_such has_CWE_prefix (rule_tags r) t ->
            none_such has_CWE_prefix (rule_tags r') -> False) as Hnotag.
  { intros r r' t Hr Hr' Ht Hn.
    rewrite (first_such_fun _ _ _ _ Hr Hr') in Ht. eapply first_none_such; eauto. }
  intros H1 H2.
  destruct H1 as [Hno|r Hr Hn|r t Hr Ht Hm|r t d Hr Ht Hm];
    destruct H2 as [Hno'|r' Hr' Hn'|r' t' Hr' Ht' Hm'|r' t' d' Hr' Ht' Hm'];
    try done;
    try (exfalso; eapply (first_none_such (fun r' => id r' = rid)); by eauto);
    try (exfalso; by eauto).
  - rewrite (Htag _ _ _ _ Hr Hr' Ht Ht') in Hm.
    destruct Hm' as (pre & Hat & _). by apply Hm in Hat.
  - rewrite (Htag _ _ _ _ Hr Hr' Ht Ht') in Hm.
    destruct Hm as (pre & Hat & _). by apply Hm' in Hat.
  - rewrite (Htag _ _ _ _ Hr Hr' Ht Ht') in Hm.
    by rewrite (CWE_leftmost_match_fun _ _ _ Hm Hm').
Qed.

(** * The category aggregator *)

Section Aggregator.
Variable run : Run.

Lemma groupByCWE_step_None g e :
  category_of run (fst e) = None ->
  ComparisonView.groupByCWE_step run g e = Ok g.
Proof.
  unfold ComparisonView.groupByCWE_step, category_of. by intros ->.
Qed.

Lemma groupByCWE_step_Some g e c :
  category_of run (fst e) = Some c ->
  JsObject.inherited c = false /\
  ComparisonView.groupByCWE_step run g e =
    push_at g c {| ComparisonView.e_ruleId := fst e;
                   ComparisonView.e_items := snd e |}.
Proof.
  unfold ComparisonView.groupByCWE_step, category_of. intros Hc.
  rewrite Hc. apply getCWEFromTags_form in Hc as (d & -> & _).
  by rewrite CWE_key_truthy, CWE_key_not_inherited.
Qed.

(** A step never throws. *)
Lemma groupByCWE_step_Ok g e :
  exists g', ComparisonView.groupByCWE_step run g e = Ok g'.
Proof.
  destruct (category_of run (fst e)) as [c|] eqn:Hc.
  - destruct (groupByCWE_step_Some g e c Hc) as [Hinh ->].
    destruct (push_at_cases g c
                {| ComparisonView.e_ruleId := fst e;
                   ComparisonView.e_items := snd e |})
      as [(arr & _ & ->)|[(_ & _ & ->)|(_ & Hinh' & _)]]; eauto. congruence.
  - rewrite groupByCWE_step_None; eauto.
Qed.

Lemma groupByCWE_fold_Ok es : forall acc,
  exists g, exc_fold (ComparisonView.groupByCWE_step run) es acc = Ok g.
Proof.
  induction es as [|e es IH]; intros acc; simpl; [eauto|].
  destruct (groupByCWE_step_Ok acc e) as [acc' ->]. simpl. apply IH.
Qed.

Lemma groupByCWE_step_categorized g e g' :
  ComparisonView.groupByCWE_step run g e = Ok g' ->
  categorized run g -> categorized run g'.
Proof.
  destruct (category_of run (fst e)) as [c|] eqn:Hc.
  - destruct (groupByCWE_step_Some g e c Hc) as [Hinh ->].
    intros Hpush Hg c' es' Hin.
    destruct (push_at_elem_of _ _ _ _ _ _ Hpush Hin)
      as [Hold|(-> & arr & -> & Harr)]; [by apply Hg|].
    split; [done|]. intros e' [He'|He']%elem_of_app.
    + destruct Harr as [->|Harr]; [inversion He'|].
      by apply (Hg _ _ Harr).
    + apply list_elem_of_singleton in He'. by rewrite He'.
  - rewrite groupByCWE_step_None by done. by intros [= <-].
Qed.

Lemma groupByCWE_fold_categorized es : forall acc g,
  exc_fold (ComparisonView.groupByCWE_step run) es acc = Ok g ->
  categorized run acc -> categorized run g.
Proof.
  induction es as [|e es IH]; intros acc g; simpl.
  - by intros [= <-].
  - destruct (ComparisonView.groupByCWE_step run acc e) as [acc'|] eqn:Hstep;
      [|done]. simpl. eauto using groupByCWE_step_categorized.
Qed.

(** Entries of a rule without category do not influence the fold. *)
Lemma groupByCWE_fold_without rid es : forall acc,
  category_of run rid = None ->
  exc_fold (ComparisonView.groupByCWE_step run)
           (List.filter (fun e => negb (String.eqb (fst e) rid)) es) acc =
  exc_fold (ComparisonView.groupByCWE_step run) es acc.
Proof.
  intros acc Hnone. revert acc.
  induction es as [|e es IH]; intros acc; simpl; [done|].
  destruct (String.eqb_spec (fst e) rid) as [Heq|Hne]; simpl.
  - rewrite groupByCWE_step_None by (by rewrite Heq). simpl. apply IH.
  - destruct (ComparisonView.groupByCWE_step run acc e); simpl; [apply IH|done].
Qed.

Lemma groupByCWE_Ok results :
  exists g, ComparisonView.groupByCWE results run = Ok g.
Proof. apply groupByCWE_fold_Ok. Qed.

Lemma groupByCWE_categorized results g :
  ComparisonView.groupByCWE results run = Ok g -> categorized run g.
Proof.
  intros Hg. eapply groupByCWE_fold_categorized; [exact Hg|].
  intros c es Hin. inversion Hin.
Qed.

Lemma categorized_plain_keys g : categorized run g -> plain_keys g.
Proof.
  intros Hg. apply list.Forall_forall. intros k Hk.
  apply list_elem_of_fmap in Hk as ([k' es] & -> & Hin).
  by apply (Hg _ _ Hin).
Qed.

End Aggregator.

(** * The comparison engine *)

Section ExcMap.
Context {A B : Type} (f : A -> exc B).

Lemma exc_map_Ok_inv l ys :
  exc_map f l = Ok ys -> Forall2 (fun x y => f x = Ok y) l ys.
Proof.
  revert ys. induction l as [|x l IH]; intros ys; simpl.
  - intros [= <-]. constructor.
  - destruct (f x) as [y|] eqn:Hx; [|done]. simpl.
    destruct (exc_map f l) as [ys'|]; [|done]. simpl.
    intros [= <-]. constructor; auto.
Qed.

Lemma exc_map_pure (g : A -> B) l :
  Forall (fun x => f x = Ok (g x)) l -> exc_map f l = Ok (map g l).
Proof.
  induction 1 as [|x l Hx _ IH]; simpl; [done|]. by rewrite Hx, IH.
Qed.

Lemma exc_map_insert l j x x' :
  l !! j = Some x -> f x' = f x -> exc_map f (<[j := x']> l) = exc_map f l.
Proof.
  revert j. induction l as [|y l IH]; intros [|j]; simpl; try done.
  - by intros [= ->] ->.
  - intros Hj Hf. by rewrite (IH _ Hj Hf).
Qed.

End ExcMap.

Lemma cweGroups_Ok (sarifs : list Dataset) :
  exists groups,
    ComparisonView.cweGroups sarifs = Ok groups /\
    length groups = length sarifs /\
    Forall plain_keys groups.
Proof.
  unfold ComparisonView.cweGroups.
  induction sarifs as [|s sarifs (groups & Hgroups & Hlen & Hkeys)]; simpl.
  - exists []. repeat split. constructor.
  - destruct (groupByCWE_Ok (ds_run s) (ds_results s)) as [g Hg].
    exists (g :: groups). rewrite Hg, Hgroups. simpl. repeat split.
    + by rewrite Hlen.
    + constructor; [|done].
      eapply categorized_plain_keys, groupByCWE_categorized, Hg.
Qed.

(** ** The category list *)

Lemma elem_of_set_values (xs : list string) (x : string) :
  x ∈ ComparisonView.set_values xs <-> x ∈ xs.
Proof.
  induction xs as [|y xs IH]; simpl; [done|].
  rewrite !elem_of_cons, <- IH, !list_elem_of_In, filter_In, negb_true_iff,
    String.eqb_neq.
  destruct (decide (x = y)); intuition congruence.
Qed.

Lemma NoDup_set_values (xs : list string) : NoDup (ComparisonView.set_values xs).
Proof.
  induction xs as [|y xs IH]; simpl; [constructor|].
  apply NoDup_cons. split.
  - rewrite list_elem_of_In, filter_In, negb_true_iff, String.eqb_neq.
    by intros [_ H].
  - apply NoDup_ListNoDup, List.NoDup_filter, NoDup_ListNoDup, IH.
Qed.

Lemma elem_of_allCWEs groups (c : string) :
  c ∈ ComparisonView.allCWEs groups <->
  exists g, g ∈ groups /\ c ∈ JsObject.keys g.
Proof.
  unfold ComparisonView.allCWEs, ComparisonView.sort.
  rewrite merge_sort_Permutation, elem_of_set_values, list_elem_of_In, in_flat_map.
  split; intros (g & Hg & Hc); exists g; by rewrite ?list_elem_of_In in *.
Qed.

Lemma NoDup_allCWEs groups : NoDup (ComparisonView.allCWEs groups).
Proof.
  unfold ComparisonView.allCWEs, ComparisonView.sort.
  rewrite merge_sort_Permutation. apply NoDup_set_values.
Qed.

Lemma string_le_ne_lt (a b : string) :
  String.le a b -> a <> b -> String.compare a b = Lt.
Proof.
  unfold String.le, String.leb. intros Hle Hne.
  destruct (String.compare a b) eqn:Hc; [|done..].
  by apply String.compare_eq_iff in Hc.
Qed.

Lemma ascending_allCWEs groups : ascending (ComparisonView.allCWEs groups).
Proof.
  pose proof (NoDup_allCWEs groups) as Hnd.
  assert (StronglySorted String.le (ComparisonView.allCWEs groups)) as Hs.
  { apply Sorted_StronglySorted; [apply _|].
    apply Sorted_merge_sort; apply _. }
  unfold ascending. induction Hs as [|c cs Hs IH Hall]; [constructor|].
  apply NoDup_cons in Hnd as [Hc Hnd]. constructor; [auto|].
  apply list.Forall_forall. intros c' Hc'.
  apply string_le_ne_lt; [by eapply list.Forall_forall in Hall|].
  by intros ->.
Qed.

(** ** Rows *)

Lemma fold_left_sizes (es : list ComparisonView.Entry) (n : nat) :
  fold_left (fun sum e => (sum + length (ComparisonView.e_items e))%nat) es n =
  (n + sum_list (map entry_size es))%nat.
Proof.
  revert n. induction es as [|e es IH]; intros n; simpl; [lia|].
  rewrite IH. unfold entry_size. lia.
Qed.

Lemma count_Ok g (c : string) :
  JsObject.inherited c = false \/ is_Some (JsObject.own g c) ->
  ComparisonView.count g c = Ok (group_count g c).
Proof.
  unfold ComparisonView.count, JsObject.get, group_count.
  destruct (JsObject.own g c) as [es|].
  - intros _. by rewrite fold_left_sizes.
  - intros [->|Hs]; [done|]. by destruct Hs.
Qed.

Section Rows.
Context {num : Type} {arith : Arith num}.

Lemma summaryRow_Ok groups (c : string) :
  JsObject.inherited c = false ->
  ComparisonView.summaryRow groups c = Ok (row_of groups c).
Proof.
  intros Hc. unfold ComparisonView.summaryRow.
  rewrite (exc_map_pure _ (fun g => group_count g c)); [done|].
  apply list.Forall_forall. intros g _. apply count_Ok. by left.
Qed.

Lemma summaryData_Ok groups :
  Forall plain_keys groups ->
  ComparisonView.summaryData groups =
    Ok (map (row_of groups) (ComparisonView.allCWEs groups)).
Proof.
  intros Hkeys. unfold ComparisonView.summaryData. apply exc_map_pure.
  apply list.Forall_forall. intros c (g & Hg & Hc)%elem_of_allCWEs.
  apply summaryRow_Ok.
  eapply list.Forall_forall in Hkeys; [|exact Hg].
  by eapply list.Forall_forall in Hkeys.
Qed.

(** Whatever the groups, a row that was produced has its three derived
    columns computed from its own counts, one count per dataset. *)
Lemma summaryData_row groups (rows : list (ComparisonView.Row num)) row :
  ComparisonView.summaryData groups = Ok rows -> row ∈ rows ->
  length (ComparisonView.findings row) = length groups /\
  ComparisonView.deltas row = ComparisonView.deltas_of (ComparisonView.findings row) /\
  ComparisonView.overlaps row =
    ComparisonView.overlaps_of (ComparisonView.findings row).
Proof.
  intros Hrows%exc_map_Ok_inv Hrow.
  apply list_elem_of_lookup in Hrow as [n Hn].
  destruct (Forall2_lookup_r _ _ _ _ _ Hrows Hn) as (c & _ & Hc).
  unfold ComparisonView.summaryRow in Hc.
  destruct (exc_map _ groups) as [fs|] eqn:Hfs; [|done]. simpl in Hc.
  injection Hc as <-. simpl. split; [|done].
  apply exc_map_Ok_inv, Forall2_length in Hfs. done.
Qed.

End Rows.

(** * Deltas and overlaps *)



(** Exact arithmetic on numbers that are not [NaN]. *)
Lemma exact_of_nat (n : nat) : num_of_nat n = Num (Qc_of_Z (Z.of_nat n)).
Proof. reflexivity. Qed.



Lemma exact_sub (a b : Qc) : num_sub (Num a) (Num b) = Num (a - b)%Qc.
Proof. reflexivity. Qed.



Lemma length_deltas_of (findings : list nat) :
  length (ComparisonView.deltas_of (num := number) findings) =
    (length findings - 1)%nat.
Proof. unfold ComparisonView.deltas_of. by rewrite length_imap, length_drop. Qed.

Lemma deltas_of_lookup (findings : list nat) (i a b : nat) :
  findings !! i = Some a -> findings !! S i = Some b ->
  ComparisonView.deltas_of findings !! i =
    Some (Num (Qc_of_Z (Z.of_nat b - Z.of_nat a))).
Proof.
  intros Ha Hb. unfold ComparisonView.deltas_of.
  rewrite list_lookup_imap, lookup_drop. change (1 + i)%nat with (S i).
  rewrite Hb. cbn [fmap option_fmap option_map].
  unfold ComparisonView.count_index. rewrite Ha.
  by rewrite !exact_of_nat, exact_sub, Z2Qc_inj_sub.
Qed.






(** * The engine's own arithmetic on the sample data *)

Example binary64_overlaps :
  map ComparisonView.overlaps (rows64_of sample_overlap) =
    [[0]; [50]; [100]]%float.
Proof. reflexivity. Qed.

Example binary64_average :
  ComparisonView.averageOverlaps (arith := binary64) (rows64_of sample_overlap) =
    [50%float].
Proof. reflexivity. Qed.

Example binary64_deltas :
  map ComparisonView.deltas (rows64_of sample_delta) = [[3]; [-3]]%float.
Proof. reflexivity. Qed.

(** Counts (2,3,0): deltas +1 and -3, overlaps 66.66... (shown as 66.7) and
    0. *)
Example binary64_three :
  map ComparisonView.cwe (rows64_of sample_three) = ["CWE-79"] /\
  map ComparisonView.findings (rows64_of sample_three) = [[2; 3; 0]%nat] /\
  map ComparisonView.deltas (rows64_of sample_three) = [[1; -3]]%float /\
  map ComparisonView.overlaps (rows64_of sample_three) =
    [[0x1.0aaaaaaaaaaaap+6; 0]]%float.
Proof. by repeat split. Qed.

(** * Average overlaps *)








(** * The per-rule summary *)

Lemma own_set {A} (o : JsObject.t A) (k k' : string) (v : A) :
  k' <> "__proto__" ->
  JsObject.own (JsObject.set o k v) k' =
  if decide (k' = k) then Some v else JsObject.own o k'.
Proof.
  intros Hk'. unfold JsObject.set.
  destruct (JsObject.own o k) eqn:Hown.
  - rewrite own_overwrite, Hown. by case_decide.
  - destruct (String.eqb_spec k "__proto__") as [->|_].
    + by rewrite decide_False.
    + by apply own_insert_new.
Qed.

Lemma ruleConfigurations_step_own acc (r : Rule) (rid : string) :
  rid <> "__proto__" ->
  JsObject.own (ResultsTable.ruleConfigurations_step acc r) rid =
  match default_level rid r with
  | Some l => Some l
  | None => JsObject.own acc rid
  end.
Proof.
  intros Hrid. unfold ResultsTable.ruleConfigurations_step, default_level.
  destruct (JsString.truthy (id r)) eqn:Hid; [|by rewrite andb_false_r].
  rewrite andb_true_r.
  destruct (defaultConfiguration r) as [dc|]; [|by destruct (String.eqb _ _)].
  destruct (dc_level dc) as [l|]; [|by destruct (String.eqb _ _)].
  destruct (JsString.truthy l); [|by destruct (String.eqb _ _)].
  rewrite own_set by done.
  destruct (String.eqb_spec (id r) rid) as [->|Hne].
  - by rewrite decide_True.
  - by rewrite decide_False.
Qed.

Lemma ruleConfigurations_fold_own (rs : list Rule) (rid : string) : forall acc,
  rid <> "__proto__" ->
  JsObject.own (fold_left ResultsTable.ruleConfigurations_step rs acc) rid =
  match last (omap (default_level rid) rs) with
  | Some l => Some l
  | None => JsObject.own acc rid
  end.
Proof.
  intros acc Hrid. revert acc.
  induction rs as [|r rs IH]; intros acc; simpl; [done|].
  rewrite IH, ruleConfigurations_step_own by done.
  destruct (default_level rid r) as [l|]; [|done].
  rewrite last_cons. by destruct (last _).
Qed.

Lemma ruleConfigurations_own (run : option Run) (rid : string) :
  rid <> "__proto__" ->
  JsObject.own (ResultsTable.ruleConfigurations run) rid = configured_level run rid.
Proof.
  intros Hrid. unfold ResultsTable.ruleConfigurations, configured_level.
  destruct run as [r|]; [|done]. simpl.
  destruct (rules r) as [rs|]; [|done]. simpl.
  rewrite ruleConfigurations_fold_own by done. by destruct (last _).
Qed.

Lemma default_level_truthy (rid : string) (r : Rule) (l : string) :
  default_level rid r = Some l -> JsString.truthy l = true.
Proof.
  unfold default_level. destruct (_ && _); [|done].
  destruct (defaultConfiguration r) as [dc|]; [|done].
  destruct (dc_level dc) as [l'|]; [|done].
  destruct (JsString.truthy l') eqn:Hl; [|done]. by intros [= <-].
Qed.

Lemma configured_level_truthy (run : option Run) (rid l : string) :
  configured_level run rid = Some l -> JsString.truthy l = true.
Proof.
  unfold configured_level. intros Hl%last_Some_elem_of.
  apply list_elem_of_omap in Hl as (r & _ & Hr).
  by eapply default_level_truthy.
Qed.

Lemma configured_or_none_spec (run : option Run) (rid : string) :
  JsObject.inherited rid = false ->
  ResultsTable.configured_or_none run rid =
    ResultsTable.VString (default "none" (configured_level run rid)).
Proof.
  intros Hinh.
  assert (rid <> "__proto__") as Hrid by (intros ->; by rewrite inherited_proto in Hinh).
  unfold ResultsTable.configured_or_none, JsObject.get.
  rewrite ruleConfigurations_own, Hinh by done.
  destruct (configured_level run rid) as [l|] eqn:Hl; [|done].
  by rewrite (configured_level_truthy _ _ _ Hl).
Qed.

Lemma severity_spec_correct (run : option Run) (rid : string) (items : list Result) :
  JsObject.inherited rid = false ->
  ResultsTable.severity run rid items =
    ResultsTable.VString (severity_spec run rid items).
Proof.
  intros Hinh. unfold ResultsTable.severity, severity_spec, own_level.
  destruct items as [|first rest]; simpl.
  - by apply configured_or_none_spec.
  - destruct (level first) as [l|]; [|by apply configured_or_none_spec].
    destruct (JsString.truthy l); [done|by apply configured_or_none_spec].
Qed.

(** ** Where the two category resolvers agree *)

Lemma digit_not_white (c : ascii) :
  JsString.is_digit c = true -> JsString.is_white c = false.
Proof.
  unfold JsString.is_digit, JsString.is_white.
  intros [H1 H2]%andb_prop. apply Nat.leb_le in H1, H2.
  repeat (apply orb_false_iff; split); apply Nat.eqb_neq; lia.
Qed.

Lemma digit_not_C (c : ascii) :
  JsString.is_digit c = true -> Ascii.eqb "C" c = false.
Proof.
  intros Hc. destruct (Ascii.eqb_spec "C" c) as [<-|]; [|done]. done.
Qed.

Lemma digits_no_white (d : string) : digits_only d = true -> no_white d = true.
Proof.
  induction d as [|c d IH]; simpl; [done|].
  intros [Hc Hd]%andb_prop. by rewrite (digit_not_white _ Hc), IH.
Qed.

Lemma trimEnd_no_white (s : string) : no_white s = true -> JsString.trimEnd s = s.
Proof.
  induction s as [|c s IH]; simpl; [done|].
  intros [Hc Hs]%andb_prop. rewrite IH by done.
  apply negb_true_iff in Hc. rewrite Hc. by destruct s.
Qed.

Lemma replace_digits (d : string) :
  digits_only d = true -> JsString.replace "CWE:" "CWE-" d = d.
Proof.
  induction d as [|c d IH]; [done|].
  intros [Hc Hd]%andb_prop.
  cbn [JsString.replace JsString.startsWith].
  rewrite (digit_not_C _ Hc). cbn [andb]. by rewrite IH.
Qed.

Lemma trim_CWE_key (d : string) :
  digits_only d = true -> JsString.trim ("CWE-" +:+ d) = "CWE-" +:+ d.
Proof.
  intros Hd. unfold JsString.trim.
  change (JsString.trimStart ("CWE-" +:+ d)) with ("CWE-" +:+ d).
  apply trimEnd_no_white.
  change (no_white ("CWE-" +:+ d)) with (no_white d). by apply digits_no_white.
Qed.

Lemma match_CWE_canonical (sep : ascii) (d : string) :
  sep = "-"%char \/ sep = ":"%char -> digit_run d ->
  JsString.match_CWE (String "C" (String "W" (String "E" (String sep d)))) = Some d.
Proof.
  intros Hsep [Hne Hd].
  assert (JsString.match_CWE_here
            (String "C" (String "W" (String "E" (String sep d)))) = Some d) as Hhere.
  { apply match_CWE_here_Some. exists sep, "".
    by rewrite append_nil_l, append_nil_r. }
  cbn [JsString.match_CWE]. by rewrite Hhere.
Qed.

(** On a rule whose first [CWE] tag is exactly [CWE-<digits>] or
    [CWE:<digits>], the two paths show the same category. *)
Lemma getCWEFromTags_agree (tags : list string) (sep : ascii) (d : string) :
  first_such has_CWE_prefix tags
             (String "C" (String "W" (String "E" (String sep d)))) ->
  sep = "-"%char \/ sep = ":"%char -> digit_run d ->
  ResultsTable.getCWEFromTags tags = Some ("CWE-" +:+ d) /\
  ComparisonView.getCWEFromTags tags = Some ("CWE-" +:+ d).
Proof.
  intros Hfirst Hsep Hd. split.
  - unfold ResultsTable.getCWEFromTags.
    erewrite find_first_such;
      [|eapply first_such_iff; [|exact Hfirst]; intros; symmetry;
        apply is_CWE_tag_spec].
    cbn [JsString.truthy negb]. f_equal. destruct Hd as [_ Hd].
    destruct Hsep as [-> | ->].
    + change (JsString.replace "CWE:" "CWE-" (String "C" (String "W" (String "E" (String "-" d)))))
        with ("CWE-" +:+ JsString.replace "CWE:" "CWE-" d).
      rewrite replace_digits by done. by apply trim_CWE_key.
    + change (JsString.replace "CWE:" "CWE-" (String "C" (String "W" (String "E" (String ":" d)))))
        with ("CWE-" +:+ d).
      by apply trim_CWE_key.
  - rewrite (getCWEFromTags_first _ _ Hfirst).
    by rewrite match_CWE_canonical.
Qed.

(** With unique rule ids, the configured level is that of the one rule with
    the id. *)
Lemma default_level_other (rid : string) (rs : list Rule) :
  Forall (fun r => id r <> rid) rs -> omap (default_level rid) rs = [].
Proof.
  induction 1 as [|r rs Hr _ IH]; simpl; [done|].
  unfold default_level at 1. apply String.eqb_neq in Hr. by rewrite Hr.
Qed.

Lemma omap_default_level_unique (rs : list Rule) (r : Rule) :
  NoDup (map id rs) -> r ∈ rs ->
  omap (default_level (id r)) rs = option_list (default_level (id r) r).
Proof.
  induction rs as [|x rs IH]; intros Hnd Hr; [inversion Hr|].
  change (map id (x :: rs)) with (id x :: map id rs) in Hnd.
  apply NoDup_cons in Hnd as [Hx Hnd].
  change (omap (default_level (id r)) (x :: rs))
    with (match default_level (id r) x with
          | Some l => l :: omap (default_level (id r)) rs
          | None => omap (default_level (id r)) rs
          end).
  apply elem_of_cons in Hr as [->|Hr].
  - rewrite (default_level_other (id x) rs).
    + by destruct (default_level (id x) x).
    + apply list.Forall_forall. intros y Hy Heq. apply Hx.
      rewrite <- Heq. by apply list_elem_of_fmap_2.
  - assert (default_level (id r) x = None) as ->; [|by apply IH].
    unfold default_level.
    assert (String.eqb (id x) (id r) = false) as ->; [|done].
    apply String.eqb_neq. intros Heq. apply Hx. rewrite Heq.
    by apply list_elem_of_fmap_2.
Qed.

Lemma configured_level_unique (run : Run) (rs : list Rule) (r : Rule) :
  rules run = Some rs -> NoDup (map id rs) -> r ∈ rs ->
  configured_level (Some run) (id r) = default_level (id r) r.
Proof.
  intros Hrs Hnd Hr. unfold configured_level.
  change (Some run ≫= rules) with (rules run). rewrite Hrs.
  change (default [] (Some rs)) with rs.
  rewrite omap_default_level_unique by done.
  by destruct (default_level (id r) r).
Qed.

(** * More on the category aggregator *)

Section Weighted.
Context {A : Type} (w : A -> nat).

Lemma weighted_size_overwrite (o : JsObject.t (list A)) k arr v :
  JsObject.own o k = Some arr ->
  (weighted_size w (JsObject.overwrite o k v) + sum_list (map w arr) =
   weighted_size w o + sum_list (map w v))%nat.
Proof.
  unfold weighted_size.
  induction o as [|[k1 v1] o IH]; simpl; [done|].
  destruct (String.eqb_spec k k1) as [->|Hne]; simpl.
  - intros [= ->]. lia.
  - intros H. specialize (IH H). lia.
Qed.

Lemma weighted_size_insert_new (o : JsObject.t (list A)) k v :
  weighted_size w (JsObject.insert_new o k v) =
  (sum_list (map w v) + weighted_size w o)%nat.
Proof. unfold weighted_size. by rewrite (insert_new_perm o k v). Qed.

Lemma push_at_weighted_size (o o' : JsObject.t (list A)) k x :
  push_at o k x = Ok o' ->
  weighted_size w o' = (weighted_size w o + w x)%nat.
Proof.
  destruct (push_at_cases o k x)
    as [(arr & Hown & ->)|[(Hown & _ & ->)|(_ & _ & ->)]]; [| |done];
    intros [= <-].
  - pose proof (weighted_size_overwrite o k arr (arr ++ [x]) Hown) as H.
    rewrite map_app, sum_list_with_app in H. simpl in H. lia.
  - rewrite weighted_size_insert_new. simpl. lia.
Qed.

(** Summing the groups key by key gives the weighted size. *)
Lemma weighted_size_keys (o : JsObject.t (list A)) :
  NoDup (JsObject.keys o) ->
  sum_list (map (fun k => match JsObject.own o k with
                          | Some v => sum_list (map w v)
                          | None => 0%nat
                          end) (JsObject.keys o)) = weighted_size w o.
Proof.
  unfold weighted_size.
  induction o as [|[k v] o IH]; simpl; [done|].
  intros [Hk Hnd]%NoDup_cons. rewrite String.eqb_refl. f_equal.
  rewrite <- IH by done. f_equal. apply map_ext_in. intros k' Hk'.
  destruct (String.eqb_spec k' k) as [->|]; [|done].
  destruct Hk. by apply list_elem_of_In.
Qed.

End Weighted.

Section AggregatorContent.
Variable run : Run.

Lemma groupByCWE_step_lookup acc e acc' (c : string) :
  ComparisonView.groupByCWE_step run acc e = Ok acc' ->
  JsObject.own acc' c =
  if in_category run c e
  then Some (default [] (JsObject.own acc c) ++ [to_entry e])
  else JsObject.own acc c.
Proof.
  unfold in_category.
  destruct (category_of run (fst e)) as [c'|] eqn:Hc.
  - destruct (groupByCWE_step_Some run acc e c' Hc) as [_ ->].
    intros Hpush. rewrite (push_at_lookup _ _ _ _ c Hpush).
    destruct (decide (c = c')) as [->|Hne].
    + by rewrite bool_decide_true.
    + rewrite bool_decide_false; [done|]. by intros [= ->].
  - rewrite groupByCWE_step_None by done. intros [= <-].
    by rewrite bool_decide_false.
Qed.

Lemma groupByCWE_fold_lookup es : forall acc g,
  exc_fold (ComparisonView.groupByCWE_step run) es acc = Ok g ->
  forall c,
    JsObject.own g c =
    match JsObject.own acc c with
    | Some arr => Some (arr ++ map to_entry (List.filter (in_category run c) es))
    | None => match List.filter (in_category run c) es with
              | [] => None
              | l => Some (map to_entry l)
              end
    end.
Proof.
  induction es as [|e es IH]; intros acc g; simpl.
  - intros [= ->] c. destruct (JsObject.own g c); [|done]. by rewrite app_nil_r.
  - destruct (ComparisonView.groupByCWE_step run acc e) as [acc'|] eqn:Hstep;
      [|done]. simpl.
    intros Hfold c. rewrite (IH _ _ Hfold c).
    rewrite (groupByCWE_step_lookup _ _ _ c Hstep).
    destruct (in_category run c e); [|done].
    destruct (JsObject.own acc c); simpl; [|done]. by rewrite <- app_assoc.
Qed.

Lemma groupByCWE_step_NoDup acc e acc' :
  ComparisonView.groupByCWE_step run acc e = Ok acc' ->
  NoDup (JsObject.keys acc) -> NoDup (JsObject.keys acc').
Proof.
  destruct (category_of run (fst e)) as [c|] eqn:Hc.
  - destruct (groupByCWE_step_Some run acc e c Hc) as [_ ->].
    apply push_at_NoDup.
  - rewrite groupByCWE_step_None by done. by intros [= <-].
Qed.

Lemma groupByCWE_fold_NoDup es : forall acc g,
  exc_fold (ComparisonView.groupByCWE_step run) es acc = Ok g ->
  NoDup (JsObject.keys acc) -> NoDup (JsObject.keys g).
Proof.
  induction es as [|e es IH]; intros acc g; simpl.
  - by intros [= <-].
  - destruct (ComparisonView.groupByCWE_step run acc e) as [acc'|] eqn:Hstep;
      [|done]. simpl. eauto using groupByCWE_step_NoDup.
Qed.

Lemma groupByCWE_NoDup results g :
  ComparisonView.groupByCWE results run = Ok g -> NoDup (JsObject.keys g).
Proof. intros Hg. eapply groupByCWE_fold_NoDup; [exact Hg|constructor]. Qed.

Lemma groupByCWE_fold_size es : forall acc g,
  exc_fold (ComparisonView.groupByCWE_step run) es acc = Ok g ->
  weighted_size entry_size g =
  (weighted_size entry_size acc +
   sum_list (map (fun e => match category_of run (fst e) with
                           | Some _ => length (snd e)
                           | None => 0
                           end) es))%nat.
Proof.
  induction es as [|e es IH]; intros acc g; simpl.
  - intros [= <-]. lia.
  - destruct (ComparisonView.groupByCWE_step run acc e) as [acc'|] eqn:Hstep;
      [|done]. simpl.
    intros Hfold. rewrite (IH _ _ Hfold).
    destruct (category_of run (fst e)) as [c|] eqn:Hc.
    + destruct (groupByCWE_step_Some run acc e c Hc) as [_ Heq].
      rewrite Heq in Hstep.
      rewrite (push_at_weighted_size entry_size _ _ _ _ Hstep).
      unfold entry_size at 2. simpl. lia.
    + rewrite groupByCWE_step_None in Hstep by done.
      injection Hstep as <-. lia.
Qed.

End AggregatorContent.

(** The counts of one group, summed over a list of categories that covers
    its keys. *)
Lemma group_count_sum g (cats : list string) :
  NoDup cats -> NoDup (JsObject.keys g) ->
  (forall k, k ∈ JsObject.keys g -> k ∈ cats) ->
  sum_list (map (group_count g) cats) = weighted_size entry_size g.
Proof.
  intros Hcats Hkeys Hsub.
  assert (JsObject.keys g ⊆+ cats) as Hsubm by by apply NoDup_submseteq.
  apply submseteq_Permutation in Hsubm as [rest Hperm].
  rewrite Hperm, map_app, sum_list_with_app.
  rewrite <- (weighted_size_keys entry_size g Hkeys).
  assert (sum_list (map (group_count g) rest) = 0%nat) as Hrest.
  { rewrite Hperm in Hcats. apply NoDup_app in Hcats as (_ & Hdisj & _).
    clear Hperm. induction rest as [|c rest IH]; simpl; [done|].
    rewrite IH.
    - unfold group_count.
      assert (JsObject.own g c = None) as ->; [|done].
      apply own_None_keys. intros Hc. apply (Hdisj c Hc). left.
    - intros x Hx Hx'. apply (Hdisj x Hx). by right. }
  rewrite Hrest. unfold group_count. lia.
Qed.

(** * The single-file table *)

(** ** The sort *)

Section SortSpec.
Context {A : Type} (cmp : A -> A -> exc Z) (w : A -> nat).

Lemma sort_insert_spec (x : A) (l : list A) :
  (forall y, y ∈ l -> cmp x y = Ok (Z.of_nat (w x) - Z.of_nat (w y))%Z) ->
  exists pre post,
    l = pre ++ post /\
    ResultsTable.sort_insert cmp x l = Ok (pre ++ x :: post) /\
    Forall (fun y => w y < w x) pre /\
    match post with [] => True | y :: _ => w x <= w y end.
Proof.
  induction l as [|y l IH]; intros Hcmp.
  - by exists [], [].
  - simpl. rewrite Hcmp by left. simpl.
    destruct (Z.leb_spec (Z.of_nat (w x) - Z.of_nat (w y)) 0).
    + exists [], (y :: l). simpl. repeat split; [constructor|lia].
    + destruct IH as (pre & post & Hl & Hins & Hpre & Hpost).
      { intros z Hz. apply Hcmp. by right. }
      rewrite Hins. simpl. exists (y :: pre), post. rewrite Hl. simpl.
      repeat split; [|done]. constructor; [lia|done].
Qed.

Lemma filter_weight_below (v : nat) (pre : list A) :
  Forall (fun y => w y < v) pre ->
  List.filter (fun x => Nat.eqb (w x) v) pre = [].
Proof.
  induction 1 as [|y pre Hy _ IH]; simpl; [done|].
  destruct (Nat.eqb_spec (w y) v); [lia|done].
Qed.

(** A comparator that subtracts weights makes the sort total, and its
    result is the stable sort by weight. *)
Lemma sort_by_spec (l : list A) :
  (forall x y, x ∈ l -> y ∈ l ->
     cmp x y = Ok (Z.of_nat (w x) - Z.of_nat (w y))%Z) ->
  exists r, ResultsTable.sort_by cmp l = Ok r /\ stably_sorted w l r.
Proof.
  induction l as [|x l IH]; intros Hcmp.
  - exists []. split; [done|]. split; [done|]. split; [constructor|done].
  - destruct IH as (r & Hr & Hperm & Hsorted & Hstable).
    { intros y z Hy Hz. apply Hcmp; by right. }
    simpl. rewrite Hr. simpl.
    destruct (sort_insert_spec x r) as (pre & post & Hl & Hins & Hpre & Hpost).
    { intros y Hy. apply Hcmp; [left|right; by rewrite <- Hperm]. }
    subst r. exists (pre ++ x :: post). split; [done|].
    assert (Forall (fun y => w x <= w y) post) as Hpost'.
    { destruct post as [|y post]; [constructor|].
      apply StronglySorted_app_1_r in Hsorted.
      apply StronglySorted_inv in Hsorted as [_ Hall].
      constructor; [done|]. eapply Forall_impl; [exact Hall|].
      simpl. intros z Hz. lia. }
    split; [|split].
    + by rewrite <- Permutation_middle, Hperm.
    + apply StronglySorted_app_2.
      * intros y z Hy [->|Hz]%elem_of_cons.
        -- rewrite list.Forall_forall in Hpre. specialize (Hpre y Hy). lia.
        -- exact (StronglySorted_app_1_elem_of _ _ _ _ _ Hsorted Hy Hz).
      * by eapply StronglySorted_app_1_l.
      * constructor; [|done]. by eapply StronglySorted_app_1_r.
    + intros v. specialize (Hstable v).
      rewrite List.filter_app in Hstable |- *. simpl.
      destruct (Nat.eqb_spec (w x) v) as [Hv|Hv]; [|by rewrite Hstable].
      rewrite <- Hstable. subst v.
      by rewrite (filter_weight_below _ _ Hpre).
Qed.

End SortSpec.

(** ** Weights *)

Lemma getSeverityWeight_rank (s : string) :
  ResultsTable.getSeverityWeight (ResultsTable.VString s) = Ok (severity_rank s).
Proof.
  unfold ResultsTable.getSeverityWeight, severity_rank. cbv zeta. f_equal.
  repeat (case_decide as Heq;
          [rewrite Heq; reflexivity
          |apply String.eqb_neq in Heq; rewrite Heq; clear Heq]).
  reflexivity.
Qed.

Lemma compareEntries_rank (run : option Run) (a b : string * list Result) :
  JsObject.inherited (fst a) = false ->
  JsObject.inherited (fst b) = false ->
  ResultsTable.compareEntries run a b =
    Ok (Z.of_nat (entry_rank run a) - Z.of_nat (entry_rank run b))%Z.
Proof.
  intros Ha Hb. unfold ResultsTable.compareEntries, entry_rank.
  rewrite !severity_spec_correct, !getSeverityWeight_rank by done.
  reflexivity.
Qed.

Lemma plain_keys_entry {A} (g : JsObject.t A) (e : string * A) :
  plain_keys g -> e ∈ JsObject.entries g -> JsObject.inherited (fst e) = false.
Proof.
  unfold plain_keys. rewrite list.Forall_forall. intros Hg He.
  apply Hg. unfold JsObject.keys. apply list_elem_of_fmap. eauto.
Qed.

Lemma sortedEntries_spec (run : option Run) (g : JsObject.t (list Result)) :
  plain_keys g ->
  exists sorted,
    ResultsTable.sortedEntries run g = Ok sorted /\
    stably_sorted (entry_rank run) (JsObject.entries g) sorted.
Proof.
  intros Hg. apply sort_by_spec. intros a b Ha Hb.
  apply compareEntries_rank; by eapply plain_keys_entry.
Qed.

Lemma totalResults_total_size (g : JsObject.t (list Result)) :
  ResultsTable.totalResults g = total_size g.
Proof.
  unfold ResultsTable.totalResults, total_size.
  assert (forall (l : list (list Result)) n,
    fold_left (fun sum items => (sum + length items)%nat) l n =
    (n + sum_list (map length l))%nat) as Hfold.
  { induction l as [|x l IH]; intros n; simpl; [lia|]. rewrite IH. lia. }
  by rewrite Hfold.
Qed.

(** ** The category resolver of the table *)

Lemma trimEnd_cons (c : ascii) (s : string) :
  JsString.is_white c = false ->
  JsString.trimEnd (String c s) = String c (JsString.trimEnd s).
Proof. intros Hc. simpl. rewrite Hc. by destruct (JsString.trimEnd s). Qed.

Lemma trim_CWE_prefix (rest : string) :
  JsString.trim ("CWE-" +:+ rest) = "CWE-" +:+ JsString.trimEnd rest.
Proof.
  unfold JsString.trim.
  change (JsString.trimStart ("CWE-" +:+ rest)) with ("CWE-" +:+ rest).
  change ("CWE-" +:+ rest)
    with (String "C" (String "W" (String "E" (String "-" rest)))).
  by rewrite !trimEnd_cons.
Qed.

Lemma replace_CWE_prefix (t : string) :
  has_CWE_prefix t ->
  exists rest, JsString.replace "CWE:" "CWE-" t = "CWE-" +:+ rest.
Proof.
  intros [rest [-> | ->]].
  - by exists rest.
  - by exists (JsString.replace "CWE:" "CWE-" rest).
Qed.

Lemma table_key_form (t : string) :
  has_CWE_prefix t ->
  exists rest,
    JsString.trim (JsString.replace "CWE:" "CWE-" t) = "CWE-" +:+ rest.
Proof.
  intros (rest & ->)%replace_CWE_prefix. rewrite trim_CWE_prefix. eauto.
Qed.

Lemma table_getCWEFromTags_spec (tags : list string) :
  (none_such has_CWE_prefix tags /\ ResultsTable.getCWEFromTags tags = None) \/
  (exists t, first_such has_CWE_prefix tags t /\
             ResultsTable.getCWEFromTags tags =
               Some (JsString.trim (JsString.replace "CWE:" "CWE-" t))).
Proof.
  unfold ResultsTable.getCWEFromTags.
  destruct (find _ tags) as [t|] eqn:Hfind.
  - right. exists t. apply find_first in Hfind as Hfirst. split.
    + eapply first_such_iff; [|exact Hfirst]. apply is_CWE_tag_spec.
    + destruct Hfirst as (_ & _ & _ & Ht & _).
      by rewrite (is_CWE_tag_truthy _ Ht).
  - left. split; [|done].
    eapply none_such_iff; [|by apply find_none_such]. apply is_CWE_tag_spec.
Qed.

Lemma table_getCWEFromTags_form (tags : list string) (c : string) :
  ResultsTable.getCWEFromTags tags = Some c ->
  exists rest, c = "CWE-" +:+ rest.
Proof.
  destruct (table_getCWEFromTags_spec tags) as [[_ ->]|(t & Ht & ->)]; [done|].
  intros [= <-]. destruct Ht as (_ & _ & _ & Ht & _). by apply table_key_form.
Qed.

(** ** Filing entries under optional keys *)

Section Filing.
Context {E : Type}.
Variable key : E -> option string.
Variable val : E -> ComparisonView.Entry.
Variable step : JsObject.t (list ComparisonView.Entry) -> E ->
                exc (JsObject.t (list ComparisonView.Entry)).
Hypothesis step_key : forall acc e,
  step acc e = match key e with
               | Some c => push_at acc c (val e)
               | None => Ok acc
               end.
Hypothesis key_plain : forall e c, key e = Some c -> JsObject.inherited c = false.

Lemma filing_step_Ok acc e : exists acc', step acc e = Ok acc'.
Proof.
  rewrite step_key. destruct (key e) as [c|] eqn:Hc; [|eauto].
  destruct (push_at_cases acc c (val e))
    as [(arr & _ & ->)|[(_ & _ & ->)|(_ & Hinh & _)]]; eauto.
  rewrite (key_plain _ _ Hc) in Hinh. done.
Qed.

Lemma filing_fold_Ok es : forall acc, exists g, exc_fold step es acc = Ok g.
Proof.
  induction es as [|e es IH]; intros acc; simpl; [eauto|].
  destruct (filing_step_Ok acc e) as [acc' ->]. simpl. apply IH.
Qed.

Lemma filing_step_lookup acc e acc' (c : string) :
  step acc e = Ok acc' ->
  JsObject.own acc' c =
  if bool_decide (key e = Some c)
  then Some (default [] (JsObject.own acc c) ++ [val e])
  else JsObject.own acc c.
Proof.
  rewrite step_key. destruct (key e) as [c'|] eqn:Hc.
  - intros Hpush. rewrite (push_at_lookup _ _ _ _ c Hpush).
    destruct (decide (c = c')) as [->|Hne].
    + by rewrite bool_decide_true.
    + rewrite bool_decide_false; [done|]. by intros [= ->].
  - intros [= <-]. by rewrite bool_decide_false.
Qed.

Lemma filing_fold_lookup es : forall acc g,
  exc_fold step es acc = Ok g ->
  forall c,
    JsObject.own g c =
    match JsObject.own acc c with
    | Some arr =>
        Some (arr ++ map val (List.filter (fun e => bool_decide (key e = Some c)) es))
    | None => match List.filter (fun e => bool_decide (key e = Some c)) es with
              | [] => None
              | l => Some (map val l)
              end
    end.
Proof.
  induction es as [|e es IH]; intros acc g; simpl.
  - intros [= ->] c. destruct (JsObject.own g c); [|done]. by rewrite app_nil_r.
  - destruct (step acc e) as [acc'|] eqn:Hstep; [|done]. simpl.
    intros Hfold c. rewrite (IH _ _ Hfold c).
    rewrite (filing_step_lookup _ _ _ c Hstep).
    destruct (bool_decide (key e = Some c)); [|done].
    destruct (JsObject.own acc c); simpl; [|done]. by rewrite <- app_assoc.
Qed.

Lemma filing_fold_NoDup es : forall acc g,
  exc_fold step es acc = Ok g ->
  NoDup (JsObject.keys acc) -> NoDup (JsObject.keys g).
Proof.
  induction es as [|e es IH]; intros acc g; simpl.
  - by intros [= <-].
  - destruct (step acc e) as [acc'|] eqn:Hstep; [|done]. simpl.
    intros Hfold Hnd. apply (IH _ _ Hfold).
    rewrite step_key in Hstep. destruct (key e) as [c|].
    + by eapply push_at_NoDup.
    + by injection Hstep as <-.
Qed.

Lemma filing_fold_size es : forall acc g,
  exc_fold step es acc = Ok g ->
  weighted_size entry_size g =
  (weighted_size entry_size acc +
   sum_list (map (fun e => match key e with
                           | Some _ => entry_size (val e)
                           | None => 0
                           end) es))%nat.
Proof.
  induction es as [|e es IH]; intros acc g; simpl.
  - intros [= <-]. lia.
  - destruct (step acc e) as [acc'|] eqn:Hstep; [|done]. simpl.
    intros Hfold. rewrite (IH _ _ Hfold).
    rewrite step_key in Hstep. destruct (key e) as [c|].
    + rewrite (push_at_weighted_size entry_size _ _ _ _ Hstep). lia.
    + injection Hstep as <-. lia.
Qed.

(** The outcome of filing into the empty dictionary. *)
Lemma filing_entries es :
  exists g,
    exc_fold step es JsObject.empty = Ok g /\
    NoDup (JsObject.keys g) /\
    (forall c l,
      (c, l) ∈ JsObject.entries g <->
      l = map val (List.filter (fun e => bool_decide (key e = Some c)) es) /\
      l <> []) /\
    weighted_size entry_size g =
      sum_list (map (fun e => match key e with
                              | Some _ => entry_size (val e)
                              | None => 0%nat
                              end) es).
Proof.
  destruct (filing_fold_Ok es JsObject.empty) as [g Hg]. exists g.
  assert (NoDup (JsObject.keys g)) as Hnd.
  { eapply filing_fold_NoDup; [exact Hg|constructor]. }
  split; [done|]. split; [done|].
  pose proof (filing_fold_lookup _ _ _ Hg) as Hlook. simpl in Hlook.
  split; [|by rewrite (filing_fold_size _ _ _ Hg)].
  intros c l. split.
  - intros Hin%(elem_of_own _ _ _ Hnd). rewrite Hlook in Hin.
    destruct (List.filter _ _) eqn:Hf; [done|]. by injection Hin as <-.
  - intros [-> Hne]. apply own_elem_of. rewrite Hlook.
    by destruct (List.filter _ _).
Qed.

End Filing.

Lemma table_cweGroups_step (run : option Run) acc (e : string * list Result) :
  ResultsTable.cweGroups_step run acc e =
  match table_category run (fst e) with
  | Some c => push_at acc c (to_entry e)
  | None => Ok acc
  end.
Proof.
  unfold ResultsTable.cweGroups_step, table_category.
  destruct (ResultsTable.getCWEFromTags _) as [c|] eqn:Hc; [|done].
  by apply table_getCWEFromTags_form in Hc as [rest ->].
Qed.

Lemma table_category_plain (run : option Run) (e : string * list Result) c :
  table_category run (fst e) = Some c -> JsObject.inherited c = false.
Proof. by intros [rest ->]%table_getCWEFromTags_form. Qed.

(** ** Levels and icons *)

Lemma lower_char_idem (c : ascii) :
  ResultsTable.lower_char (ResultsTable.lower_char c) = ResultsTable.lower_char c.
Proof. destruct c as [[] [] [] [] [] [] [] []]; reflexivity. Qed.

Lemma toLowerCase_idem (s : string) :
  ResultsTable.toLowerCase (ResultsTable.toLowerCase s) = ResultsTable.toLowerCase s.
Proof.
  induction s as [|c s IH]; simpl; [done|]. by rewrite lower_char_idem, IH.
Qed.

Lemma severity_rank_bound (s : string) : severity_rank s <= 4.
Proof. unfold severity_rank. cbv zeta. repeat case_decide; lia. Qed.

Lemma getSeverityIcon_rank (s : string) :
  ResultsTable.getSeverityIcon (Some s) = icon_of_rank (severity_rank s).
Proof.
  unfold ResultsTable.getSeverityIcon, severity_rank. cbv zeta.
  destruct (ResultsTable.toLowerCase s) as [|c l] eqn:Hl; [reflexivity|].
  cbn [JsString.truthy].
  repeat (case_decide as Heq;
          [rewrite Heq; reflexivity
          |apply String.eqb_neq in Heq; rewrite Heq; clear Heq]).
  reflexivity.
Qed.

Lemma getEffectiveLevel_spec (run : option Run) (f : Result) :
  JsObject.inherited (ruleId f) = false ->
  ResultsTable.getEffectiveLevel run f =
    Ok (ResultsTable.toLowerCase (severity_spec run (ruleId f) [f])).
Proof.
  intros Hinh.
  assert (ruleId f <> "__proto__") as Hrid
    by (intros Heq; by rewrite Heq, inherited_proto in Hinh).
  unfold ResultsTable.getEffectiveLevel, severity_spec, own_level, JsObject.get.
  cbv zeta. rewrite ruleConfigurations_own, Hinh by done. simpl.
  destruct (level f) as [l|]; [destruct (JsString.truthy l); [done|]|];
    (destruct (configured_level run (ruleId f)) as [l'|] eqn:Hl; [|done];
     by rewrite (configured_level_truthy _ _ _ Hl)).
Qed.

(** ** The exported summary *)

Lemma sum_counts (run : option Run) (es : list (string * list Result)) :
  sum_list (map ResultsTable.sr_count (map (ResultsTable.summaryRow run) es)) =
  sum_list (map length (map snd es)).
Proof. induction es as [|e es IH]; simpl; [done|]. by rewrite IH. Qed.

Lemma totalFindings_size (es : list ComparisonView.Entry) :
  ResultsTable.totalFindings es = sum_list (map entry_size es).
Proof. unfold ResultsTable.totalFindings. by rewrite fold_left_sizes. Qed.

(** * The application state *)






(** * Expanded categories *)

Lemma own_define {A} (o : JsObject.t A) (k k' : string) (v : A) :
  JsObject.own (JsObject.define o k v) k' =
  if decide (k' = k) then Some v else JsObject.own o k'.
Proof.
  unfold JsObject.define. destruct (JsObject.own o k) eqn:Hown.
  - rewrite own_overwrite, Hown. done.
  - by apply own_insert_new.
Qed.

(** * The comparison engine, further *)

Lemma ascending_unique (l l' : list string) :
  ascending l -> ascending l' -> l ≡ₚ l' -> l = l'.
Proof.
  unfold ascending. apply StronglySorted_unique_strong.
  intros a b _ _ Hab Hba. rewrite String.compare_antisym, Hab in Hba. done.
Qed.

Lemma allCWEs_Permutation groups groups' :
  groups ≡ₚ groups' ->
  ComparisonView.allCWEs groups = ComparisonView.allCWEs groups'.
Proof.
  intros Hperm.
  apply ascending_unique; [apply ascending_allCWEs..|].
  apply NoDup_Permutation; [apply NoDup_allCWEs..|].
  intros c. rewrite !elem_of_allCWEs.
  split; intros (g & Hg & Hc); exists g; split; try done;
    [by rewrite <- Hperm|by rewrite Hperm].
Qed.

Section Symmetry.
Context {num : Type} {arith : Arith num}.

Lemma overlap_swap (a b : nat) :
  ComparisonView.overlap (num := num) [a; b] b = ComparisonView.overlap [b; a] a.
Proof.
  unfold ComparisonView.overlap. simpl.
  by rewrite (andb_comm (a =? 0)%nat), (Nat.min_comm b a), (Nat.max_comm b a).
Qed.

Lemma fold_overlaps (rows : list (ComparisonView.Row num)) (index : nat) :
  forall z : num,
  fold_left
    (fun acc data =>
       num_add acc (ComparisonView.num_index (ComparisonView.overlaps data) index))
    rows z =
  fold_left (fun acc o => num_add acc (ComparisonView.num_index o index))
            (map ComparisonView.overlaps rows) z.
Proof. induction rows as [|row rows IH]; intros z; simpl; [done|apply IH]. Qed.

(** The averages depend on the rows through their overlaps only. *)
Lemma averageOverlaps_ext (rows rows' : list (ComparisonView.Row num)) :
  map ComparisonView.overlaps rows = map ComparisonView.overlaps rows' ->
  ComparisonView.averageOverlaps rows = ComparisonView.averageOverlaps rows'.
Proof.
  intros Heq.
  assert (length rows = length rows') as Hlen.
  { by rewrite <- (length_map ComparisonView.overlaps rows), Heq, length_map. }
  destruct rows as [|row0 rows], rows' as [|row0' rows']; try done.
  unfold ComparisonView.averageOverlaps.
  assert (ComparisonView.overlaps row0 = ComparisonView.overlaps row0') as ->
    by by injection Heq.
  apply imap_ext. intros i x _. cbv zeta.
  by rewrite !fold_overlaps, Heq, Hlen.
Qed.

End Symmetry.

(** ** Extreme overlaps *)







(** ** Bounds of the averages *)




(** ** The exported comparison *)

Section Shape.
Context {num : Type} {arith : Arith num}.

Lemma length_deltas_of_any (findings : list nat) :
  length (ComparisonView.deltas_of (num := num) findings) =
    (length findings - 1)%nat.
Proof. unfold ComparisonView.deltas_of. by rewrite length_imap, length_drop. Qed.

Lemma length_overlaps_of_any (findings : list nat) :
  length (ComparisonView.overlaps_of (num := num) findings) =
    (length findings - 1)%nat.
Proof. unfold ComparisonView.overlaps_of. by rewrite length_map, length_drop. Qed.

Lemma length_averageOverlaps_any (rows : list (ComparisonView.Row num)) :
  length (ComparisonView.averageOverlaps rows) =
  match rows with
  | [] => 0%nat
  | row0 :: _ => length (ComparisonView.overlaps row0)
  end.
Proof.
  destruct rows; [done|].
  unfold ComparisonView.averageOverlaps. by rewrite length_imap.
Qed.

Lemma row_widths groups (rows : list (ComparisonView.Row num)) row :
  ComparisonView.summaryData groups = Ok rows -> row ∈ rows ->
  length (ComparisonView.findings row) = length groups /\
  length (ComparisonView.deltas row) = (length groups - 1)%nat /\
  length (ComparisonView.overlaps row) = (length groups - 1)%nat.
Proof.
  intros Hrows Hrow.
  destruct (summaryData_row _ _ _ Hrows Hrow) as (Hlen & -> & ->).
  by rewrite length_deltas_of_any, length_overlaps_of_any, Hlen.
Qed.

End Shape.

Lemma length_headers (toolNames : list string) :
  length (ComparisonView.headers toolNames) = length toolNames /\
  length (ComparisonView.deltaHeaders toolNames) = (length toolNames - 1)%nat /\
  length (ComparisonView.overlapHeaders toolNames) = (length toolNames - 1)%nat.
Proof.
  unfold ComparisonView.headers, ComparisonView.deltaHeaders,
    ComparisonView.overlapHeaders.
  by rewrite !length_map, length_imap, length_drop.
Qed.

(** ** Colours of the deltas *)

Lemma Qc_of_Z_pos (z : Z) : (0 < Qc_of_Z z)%Qc <-> (0 < z)%Z.
Proof. rewrite <- Z2Qc_inj_0. symmetry. apply Z2Qc_inj_lt. Qed.

Lemma Qc_of_Z_neg (z : Z) : (Qc_of_Z z < 0)%Qc <-> (z < 0)%Z.
Proof. rewrite <- Z2Qc_inj_0. symmetry. apply Z2Qc_inj_lt. Qed.

Lemma delta_tone_counts (a b : nat) :
  ComparisonView.delta_tone (Num (Qc_of_Z (Z.of_nat b - Z.of_nat a))) =
    tone_of_counts a b.
Proof.
  unfold ComparisonView.delta_tone, tone_of_counts.
  repeat case_decide; try done;
    rewrite ?Qc_of_Z_pos, ?Qc_of_Z_neg in *; lia.
Qed.

Lemma delta_sign_counts (a b : nat) :
  ComparisonView.delta_sign (Num (Qc_of_Z (Z.of_nat b - Z.of_nat a))) = "+"
  <-> a < b.
Proof.
  unfold ComparisonView.delta_sign.
  case_decide as Hq; rewrite Qc_of_Z_pos in Hq; split; try done; lia.
Qed.

Lemma panel_deltas_lookup (findings : list nat) (i a b : nat) :
  findings !! i = Some a -> findings !! S i = Some b ->
  ComparisonView.panel_deltas findings !! i =
    Some (Some (tone_of_counts a b, Num (Qc_of_Z (Z.of_nat b - Z.of_nat a)))).
Proof.
  intros Ha Hb. unfold ComparisonView.panel_deltas.
  rewrite list_lookup_imap, Ha. cbn [fmap option_fmap option_map].
  unfold ComparisonView.panel_delta.
  apply lookup_lt_Some in Hb as Hlt.
  destruct (Z.ltb_spec (Z.of_nat i) (Z.of_nat (length findings) - 1)); [|lia].
  rewrite Hb, !exact_of_nat, exact_sub, Z2Qc_inj_sub.
  do 3 f_equal. unfold tone_of_counts.
  destruct (Nat.ltb_spec a b), (Nat.ltb_spec b a);
    repeat case_decide; try done; lia.
Qed.

Lemma panel_deltas_last (findings : list nat) (i a : nat) :
  findings !! i = Some a -> S i = length findings ->
  ComparisonView.panel_deltas findings !! i = Some None.
Proof.
  intros Ha Hlen. unfold ComparisonView.panel_deltas.
  rewrite list_lookup_imap, Ha. cbn [fmap option_fmap option_map].
  unfold ComparisonView.panel_delta.
  by destruct (Z.ltb_spec (Z.of_nat i) (Z.of_nat (length findings) - 1)); [lia|].
Qed.

(** * The claims *)



(** C2, evaluated on the code: on a tag with the prefix and no digits the
    per-rule summary shows a category where the comparison path resolves
    none, and on a tag with text after the digits the two differ as well. *)
Theorem C2_resolvers_differ :
  ResultsTable.getCWEFromTags ["CWE-"] = Some "CWE-" /\
  ComparisonView.getCWEFromTags ["CWE-"] = None /\
  ResultsTable.getCWEFromTags ["CWE-79: Cross-site Scripting"] =
    Some "CWE-79: Cross-site Scripting" /\
  ComparisonView.getCWEFromTags ["CWE-79: Cross-site Scripting"] = Some "CWE-79".
Proof. by repeat split. Qed.



(** C4. For any list of datasets, and whatever the arithmetic, the engine
    throws nowhere and emits one row per category in the union of the
    datasets' category keys, in strictly ascending lexicographic order (hence
    without duplicates); the row holds one count per dataset, the number of
    findings grouped under the category there, which is 0 where the dataset
    has no entry for it. *)
Theorem C4_rows {num : Type} (arith : Arith num) (sarifs : list Dataset) :
  exists groups (rows : list (ComparisonView.Row num)),
    ComparisonView.cweGroups sarifs = Ok groups /\
    ComparisonView.summaryData groups = Ok rows /\
    length groups = length sarifs /\
    (forall c, c ∈ map ComparisonView.cwe rows <->
               exists g, g ∈ groups /\ c ∈ JsObject.keys g) /\
    ascending (map ComparisonView.cwe rows) /\
    NoDup (map ComparisonView.cwe rows) /\
    (forall row, row ∈ rows ->
       length (ComparisonView.findings row) = length sarifs /\
       forall j g, groups !! j = Some g ->
         ComparisonView.findings row !! j =
           Some (group_count g (ComparisonView.cwe row)) /\
         (JsObject.own g (ComparisonView.cwe row) = None ->
          ComparisonView.findings row !! j = Some 0%nat)).
Proof.
  destruct (cweGroups_Ok sarifs) as (groups & Hgroups & Hlen & Hkeys).
  exists groups, (map (row_of groups) (ComparisonView.allCWEs groups)).
  assert (map ComparisonView.cwe
            (map (row_of groups) (ComparisonView.allCWEs groups)) =
          ComparisonView.allCWEs groups) as Hcats.
  { rewrite map_map. apply map_id. }
  rewrite Hcats. split; [done|]. split; [by apply summaryData_Ok|].
  split; [done|]. split; [apply elem_of_allCWEs|].
  split; [apply ascending_allCWEs|]. split; [apply NoDup_allCWEs|].
  intros row (c & -> & _)%list_elem_of_fmap. simpl. split.
  - by rewrite length_map.
  - intros j g Hj.
    assert (map (fun g0 => group_count g0 c) groups !! j = Some (group_count g c))
      as Hcount by by rewrite list_lookup_fmap, Hj.
    split; [done|]. intros Hown. rewrite Hcount. unfold group_count.
    by rewrite Hown.
Qed.

(** C5. The resolver of the comparison path returns exactly what its
    contract lists: none without a rule of that id, none when the rule's
    tags (default empty) hold no tag starting with [CWE:] or [CWE-], none
    when the first such tag has no match of [CWE[-:](\d+)], and otherwise
    [CWE-] followed by the digits matched in that first such tag. *)
Theorem C5_category_resolver (run : Run) (rid : string) (c : option string) :
  category_of run rid = c <-> resolves run rid c.
Proof.
  split.
  - intros <-. apply resolves_category_of.
  - intros Hc. eapply resolves_fun; [apply resolves_category_of|exact Hc].
Qed.

(** C6, evaluated on the code: a finding whose [ruleId] names a member every
    object inherits makes the store throw instead of grouping it, and the
    store returns groups exactly for the inputs free of such names. *)
Theorem C6_store_throws :
  App.grouped [finding "constructor" None] = TypeError /\
  App.handleFileUpload
    {| version := "2.1.0";
       runs := [ {| driver_name := "scanner"; rules := None;
                    results := [finding "constructor" None] |} ] |}
    0 App.resetComparison = TypeError /\
  forall fs, (exists g, App.grouped fs = Ok g) <->
             Forall (fun f => JsObject.inherited (ruleId f) = false) fs.
Proof. split; [done|]. split; [done|]. apply grouped_Ok. Qed.

(** C7. In every comparison row, [deltas[i]] is the count of dataset [i+1]
    minus the count of dataset [i], and there is one delta per consecutive
    pair of datasets. *)
Theorem C7_deltas groups rows row (i a b : nat) :
  ComparisonView.summaryData groups = Ok rows -> row ∈ rows ->
  ComparisonView.findings row !! i = Some a ->
  ComparisonView.findings row !! S i = Some b ->
  ComparisonView.deltas row !! i =
    Some (Num (Qc_of_Z (Z.of_nat b - Z.of_nat a))) /\
  length (ComparisonView.deltas row) = (length groups - 1)%nat.
Proof.
  intros Hrows Hrow Ha Hb.
  destruct (summaryData_row _ _ _ Hrows Hrow) as (Hlen & -> & _).
  split; [by apply deltas_of_lookup|]. by rewrite length_deltas_of, Hlen.
Qed.

(** C7 at the counts (5,8) and (8,5): +3 and -3. *)
Lemma C7_witness :
  map ComparisonView.findings (rows_of sample_delta) = [[5; 8]; [8; 5]]%nat /\
  map (fun row => ComparisonView.deltas row !! 0%nat) (rows_of sample_delta) =
    [Some (Num (Qc_of_Z 3)); Some (Num (Qc_of_Z (-3)))].
Proof.
  split; [reflexivity|].
  assert (ComparisonView.summaryData (groups_of sample_delta) =
          Ok (rows_of sample_delta)) as Hrows by reflexivity.
  assert (exists r1 r2,
            rows_of sample_delta = [r1; r2] /\
            ComparisonView.findings r1 = [5; 8]%nat /\
            ComparisonView.findings r2 = [8; 5]%nat)
    as (r1 & r2 & HR & F1 & F2).
  { do 2 eexists. split; [vm_compute; reflexivity|]. by split. }
  destruct (C7_deltas _ _ r1 0 5 8 Hrows)%nat as [D1 _];
    [rewrite HR; repeat constructor|by rewrite F1..|].
  destruct (C7_deltas _ _ r2 0 8 5 Hrows)%nat as [D2 _];
    [rewrite HR; repeat constructor|by rewrite F2..|].
  rewrite HR. cbn [map]. by rewrite D1, D2.
Defined.

(** C8. A rule whose category resolves to none appears in no group of its
    dataset's aggregation, and removing its findings from the dataset changes
    neither the comparison rows nor the averages, whatever the arithmetic. *)
Theorem C8_uncategorized_absent {num : Type} (arith : Arith num)
    (sarifs : list Dataset) (j : nat) (d : Dataset) (rid : string) :
  sarifs !! j = Some d ->
  category_of (ds_run d) rid = None ->
  (exists g,
     ComparisonView.groupByCWE (ds_results d) (ds_run d) = Ok g /\
     forall c es e, (c, es) ∈ JsObject.entries g -> e ∈ es ->
                    ComparisonView.e_ruleId e <> rid) /\
  ComparisonView.compare (arith := arith) (<[j := without_rule rid d]> sarifs) =
    ComparisonView.compare sarifs.
Proof.
  intros Hj Hnone. split.
  - destruct (groupByCWE_Ok (ds_run d) (ds_results d)) as [g Hg].
    exists g. split; [done|]. intros c es e Hin He Heq.
    destruct (groupByCWE_categorized _ _ _ Hg _ _ Hin) as [_ Hcat].
    specialize (Hcat e He). congruence.
  - unfold ComparisonView.compare, ComparisonView.cweGroups.
    erewrite exc_map_insert; [done|exact Hj|].
    by apply groupByCWE_fold_without.
Qed.

(** C8 on a run whose rule [style] has a finding and no category. *)
Lemma C8_witness :
  JsObject.own (ds_results (upload (sample_run 4 3 0))) "style" =
    Some [finding "style" (Some "note")] /\
  (exists g,
     ComparisonView.groupByCWE (ds_results (upload (sample_run 4 3 0)))
                               (sample_run 4 3 0) = Ok g /\
     forall c es e, (c, es) ∈ JsObject.entries g -> e ∈ es ->
                    ComparisonView.e_ruleId e <> "style") /\
  ComparisonView.compare (arith := exact)
    (<[0%nat := without_rule "style" (upload (sample_run 4 3 0))]> sample_overlap) =
    ComparisonView.compare sample_overlap.
Proof.
  split; [vm_compute; reflexivity|].
  apply (C8_uncategorized_absent exact sample_overlap 0
           (upload (sample_run 4 3 0)) "style");
    vm_compute; reflexivity.
Defined.

(** C9. Once the first tag with the prefix is selected, the digits are those
    of the leftmost match of [CWE[-:](\d+)] in its text, wherever that match
    starts. *)
Theorem C9_match_anywhere (before after : list string) (t d : string) :
  Forall (fun x => ~ has_CWE_prefix x) before ->
  has_CWE_prefix t ->
  CWE_leftmost_match t d ->
  ComparisonView.getCWEFromTags (before ++ t :: after) = Some ("CWE-" +:+ d).
Proof.
  intros Hbefore Ht Hd.
  rewrite (getCWEFromTags_first _ t).
  - apply match_CWE_Some in Hd. by rewrite Hd.
  - by exists before, after.
Qed.

(** C9 on a tag with the prefix, no digits after it, and a later match. *)
Lemma C9_witness :
  CWE_match_at "CWE-Insecure see CWE-89" "CWE-Insecure see " "89" /\
  ComparisonView.getCWEFromTags ["security"; "CWE-Insecure see CWE-89"; "CWE-1"] =
    Some "CWE-89".
Proof.
  split.
  - exists "-"%char, "". by repeat split; auto.
  - apply (C9_match_anywhere ["security"] ["CWE-1"] "CWE-Insecure see CWE-89" "89").
    + constructor; [|constructor]. intros [rest [H|H]]; discriminate H.
    + exists "Insecure see CWE-89". by right.
    + by apply match_CWE_Some.
Defined.

(** C10 (as amended). For a rule id that names no inherited member, the
    severity of the rule's summary line, which is also its export value and
    its sort key, is the first finding's own level when present and not
    empty, else the default level configured for that id by a rule with a
    non-empty id and a non-empty level (the last such rule), else [none];
    later findings of the group have no influence. *)
Theorem C10_rule_severity (run : option Run) (rid : string) (items : list Result) :
  JsObject.inherited rid = false ->
  ResultsTable.severity run rid items =
    ResultsTable.VString (severity_spec run rid items) /\
  ResultsTable.sr_severity (ResultsTable.summaryRow run (rid, items)) =
    ResultsTable.VString (severity_spec run rid items) /\
  ResultsTable.getSeverityWeight (ResultsTable.severity run rid items) =
    ResultsTable.getSeverityWeight
      (ResultsTable.VString (severity_spec run rid items)) /\
  forall first rest rest',
    items = first :: rest ->
    ResultsTable.severity run rid (first :: rest') =
    ResultsTable.severity run rid items.
Proof.
  intros Hinh. pose proof (severity_spec_correct run rid items Hinh) as Hsev.
  split; [done|]. split; [done|]. split; [by rewrite Hsev|].
  by intros first rest rest' ->.
Qed.

(** C10 as stated fails: the rule with the empty id has the default level
    [error], its finding has no level, and the severity is [none]. *)
Lemma C10_counterexample :
  rules sample_anonymous = Some [rule "" (Some "error") []] /\
  results sample_anonymous = [finding "" None] /\
  id (rule "" (Some "error") []) = ruleId (finding "" None) /\
  (defaultConfiguration (rule "" (Some "error") []) ≫= dc_level) = Some "error" /\
  level (finding "" None) = None /\
  ResultsTable.severity (Some sample_anonymous) "" [finding "" None] =
    ResultsTable.VString "none".
Proof. by repeat split. Qed.

(** C10 on a group whose findings carry different levels. *)
Lemma C10_witness :
  ResultsTable.severity (Some (sample_run 2 0 0)) "xss"
    [finding "xss" None; finding "xss" (Some "note")] =
    ResultsTable.VString "error" /\
  ResultsTable.severity (Some (sample_run 2 0 0)) "xss"
    [finding "xss" (Some "warning"); finding "xss" (Some "note")] =
    ResultsTable.VString "warning" /\
  ResultsTable.severity (Some (sample_run 2 0 0)) "unknown"
    [finding "unknown" (Some ""); finding "unknown" (Some "note")] =
    ResultsTable.VString "none".
Proof.
  split; [|split].
  - destruct (C10_rule_severity (Some (sample_run 2 0 0)) "xss"
                [finding "xss" None; finding "xss" (Some "note")] eq_refl)
      as [-> _]. reflexivity.
  - destruct (C10_rule_severity (Some (sample_run 2 0 0)) "xss"
                [finding "xss" (Some "warning"); finding "xss" (Some "note")]
                eq_refl) as [-> _]. reflexivity.
  - destruct (C10_rule_severity (Some (sample_run 2 0 0)) "unknown"
                [finding "unknown" (Some ""); finding "unknown" (Some "note")]
                eq_refl) as [-> _]. reflexivity.
Defined.


(** * Further properties *)

(** X1. A successful upload stores, in the slot it was made for, the first
    run of the document with its findings grouped by rule: no rule has two
    groups, the group of a rule is the sub-sequence of its findings in input
    order, no group is empty, and the group sizes add up to the number of
    findings. *)
Theorem upload_stores_partition (sarifData : SarifLog) (index : nat)
    (prev sarifs : list (option Dataset)) :
  App.handleFileUpload sarifData index prev = Ok sarifs ->
  exists run g,
    head (runs sarifData) = Some run /\
    sarifs = array_set prev index {| ds_results := g; ds_run := run |} /\
    NoDup (JsObject.keys g) /\
    total_size g = length (results run) /\
    (forall k items,
        (k, items) ∈ JsObject.entries g <->
        items = by_rule k (results run) /\ items <> []) /\
    (forall f, f ∈ results run ->
        (ruleId f, by_rule (ruleId f) (results run)) ∈ JsObject.entries g).
Proof.
  unfold App.handleFileUpload.
  destruct (runs sarifData) as [|run rest]; [done|].
  destruct (App.grouped (results run)) as [g|] eqn:Hg; [|done]. simpl.
  intros [= <-]. exists run, g. split; [done|]. split; [done|].
  by apply grouped_partition.
Qed.

(** X1 on a document with findings of three rules. *)
Lemma upload_stores_partition_witness :
  exists g,
    App.handleFileUpload {| version := "2.1.0"; runs := [sample_run 2 1 0] |}
      1 App.resetComparison =
      Ok [None; Some {| ds_results := g; ds_run := sample_run 2 1 0 |}; None] /\
    JsObject.keys g = ["xss"; "sqli"; "style"] /\
    total_size g = 4%nat.
Proof.
  destruct (upload_stores_partition
              {| version := "2.1.0"; runs := [sample_run 2 1 0] |} 1
              App.resetComparison
              [None; Some (upload (sample_run 2 1 0)); None])
    as (run & g & Hrun & Hs & _ & Hsize & _); [vm_compute; reflexivity|].
  injection Hrun as <-. exists g.
  assert (g = ds_results (upload (sample_run 2 1 0))) as Hg.
  { revert Hs. unfold array_set. simpl. intros [= ->]. reflexivity. }
  split; [by rewrite Hg|]. split; [by rewrite Hg|]. by rewrite Hsize.
Defined.

(** X2. The category aggregator never throws; in its result no category
    has two groups, and the group of a category lists exactly the rule groups
    of the finding store whose rule resolves to that category, in the order
    of the store; a category without such a rule has no group. *)
Theorem aggregator_groups_by_category (results : JsObject.t (list Result))
    (run : Run) :
  exists g,
    ComparisonView.groupByCWE results run = Ok g /\
    NoDup (JsObject.keys g) /\
    forall c es,
      (c, es) ∈ JsObject.entries g <->
      es = category_entries run c results /\ es <> [].
Proof.
  destruct (groupByCWE_Ok run results) as [g Hg]. exists g.
  pose proof (groupByCWE_NoDup _ _ _ Hg) as Hnd.
  split; [done|]. split; [done|].
  pose proof (groupByCWE_fold_lookup run _ _ _ Hg) as Hlook. simpl in Hlook.
  intros c es. unfold category_entries. split.
  - intros Hin%(elem_of_own _ _ _ Hnd). rewrite Hlook in Hin.
    destruct (List.filter _ _) eqn:Hf; [done|]. by injection Hin as <-.
  - intros [-> Hne]. apply own_elem_of. rewrite Hlook.
    by destruct (List.filter _ _).
Qed.

(** X3. In the comparison table, the counts of one dataset summed over all
    rows equal the number of that dataset's findings whose rule has a
    category: no such finding is lost or counted twice. *)
Theorem comparison_counts_conserved {num : Type} (arith : Arith num)
    (sarifs : list Dataset) :
  exists groups (rows : list (ComparisonView.Row num)),
    ComparisonView.cweGroups sarifs = Ok groups /\
    ComparisonView.summaryData groups = Ok rows /\
    forall j d, sarifs !! j = Some d ->
      sum_list (map (count_at j) rows) = categorized_findings d.
Proof.
  destruct (cweGroups_Ok sarifs) as (groups & Hgroups & Hlen & Hkeys).
  exists groups, (map (row_of groups) (ComparisonView.allCWEs groups)).
  split; [done|]. split; [by apply summaryData_Ok|].
  intros j d Hj.
  apply exc_map_Ok_inv in Hgroups.
  destruct (Forall2_lookup_l _ _ _ _ _ Hgroups Hj) as (g & Hg & Hgd).
  rewrite map_map.
  rewrite (map_ext _ (group_count g)).
  - rewrite group_count_sum.
    + rewrite (groupByCWE_fold_size (ds_run d) _ _ _ Hgd). reflexivity.
    + apply NoDup_allCWEs.
    + eapply groupByCWE_NoDup, Hgd.
    + intros k Hk. apply elem_of_allCWEs. exists g.
      split; [|done]. by eapply list_elem_of_lookup_2.
  - intros c. unfold count_at, row_of. simpl.
    by rewrite list_lookup_fmap, Hg.
Qed.

(** X4. On the findings of a stored dataset the severity sort of the
    single-file table never throws: it returns the rule groups of the store
    by ascending severity weight, groups of equal weight in the order of the
    store. *)
Theorem sortedEntries_stable (run : option Run) (fs : list Result)
    (g : JsObject.t (list Result)) :
  App.grouped fs = Ok g ->
  exists sorted,
    ResultsTable.sortedEntries run g = Ok sorted /\
    stably_sorted (entry_rank run) (JsObject.entries g) sorted.
Proof. intros Hg. eapply sortedEntries_spec, grouped_plain_keys, Hg. Qed.

(** X4 on findings stored in the order note, none, warning, error. *)
Lemma sortedEntries_stable_witness :
  exists sorted,
    ResultsTable.sortedEntries (Some sample_shuffled)
      (ds_results (upload sample_shuffled)) = Ok sorted /\
    JsObject.keys (ds_results (upload sample_shuffled)) =
      ["style"; "path"; "sqli"; "xss"] /\
    map fst sorted = ["xss"; "sqli"; "style"; "path"].
Proof.
  destruct (sortedEntries_stable (Some sample_shuffled) (results sample_shuffled)
              (ds_results (upload sample_shuffled)))
    as (sorted & Hs & _); [vm_compute; reflexivity|].
  exists sorted. split; [exact Hs|]. split; [vm_compute; reflexivity|].
  vm_compute in Hs. injection Hs as <-. reflexivity.
Defined.

(** X5. The exported summary of a stored dataset has one row per rule of
    the store and a last row TOTAL, whose count is the sum of the counts of
    the rule rows and the number of findings of the run. *)
Theorem export_total_row (run : option Run) (fs : list Result)
    (g : JsObject.t (list Result)) :
  App.grouped fs = Ok g ->
  exists rows total,
    ResultsTable.exportData run g = Ok (rows ++ [total]) /\
    map ResultsTable.sr_ruleId rows ≡ₚ JsObject.keys g /\
    ResultsTable.sr_ruleId total = "TOTAL" /\
    ResultsTable.sr_count total = sum_list (map ResultsTable.sr_count rows) /\
    ResultsTable.sr_count total = length fs.
Proof.
  intros Hg.
  destruct (sortedEntries_spec run g (grouped_plain_keys _ _ Hg))
    as (sorted & Hs & Hperm & _).
  destruct (grouped_partition _ _ Hg) as (_ & Hsize & _).
  unfold ResultsTable.exportData. rewrite Hs. simpl.
  eexists _, _. split; [reflexivity|]. simpl.
  rewrite totalResults_total_size.
  split; [|split; [done|split; [|done]]].
  - rewrite map_map. simpl. change (map _ sorted) with (map fst sorted).
    unfold JsObject.keys. by rewrite Hperm.
  - rewrite sum_counts. unfold total_size, JsObject.values.
    assert (map length (map snd sorted) ≡ₚ map length (map snd g)) as Hp
      by by do 2 apply Permutation_map.
    by rewrite Hp.
Qed.

(** X5 on a run with five findings of four rules. *)
Lemma export_total_row_witness :
  exists rows total,
    ResultsTable.exportData (Some sample_shuffled)
      (ds_results (upload sample_shuffled)) = Ok (rows ++ [total]) /\
    length rows = 4%nat /\
    ResultsTable.sr_count total = 5%nat.
Proof.
  destruct (export_total_row (Some sample_shuffled) (results sample_shuffled)
              (ds_results (upload sample_shuffled)))
    as (rows & total & He & Hperm & _ & _ & Hn); [vm_compute; reflexivity|].
  exists rows, total. split; [exact He|]. split; [|exact Hn].
  apply Permutation_length in Hperm. rewrite length_map in Hperm.
  rewrite Hperm. vm_compute. reflexivity.
Defined.

(** X6. For the first finding of a rule group of a stored dataset, the
    level shown in the detail list is the lower-case form of the severity
    the summary shows for the group, so both carry the same icon; computing
    it never throws. *)
Theorem detail_level_matches_summary (run : option Run) (fs : list Result)
    (g : JsObject.t (list Result)) (k : string) (items : list Result)
    (first : Result) :
  App.grouped fs = Ok g ->
  (k, items) ∈ JsObject.entries g ->
  head items = Some first ->
  exists s,
    ResultsTable.severity run k items = ResultsTable.VString s /\
    ResultsTable.getEffectiveLevel run first = Ok (ResultsTable.toLowerCase s) /\
    ResultsTable.getSeverityIcon (Some (ResultsTable.toLowerCase s)) =
      ResultsTable.getSeverityIcon (Some s).
Proof.
  intros Hg Hin Hfirst.
  pose proof (plain_keys_entry _ _ (grouped_plain_keys _ _ Hg) Hin) as Hinh.
  simpl in Hinh.
  destruct (grouped_partition _ _ Hg) as (_ & _ & Hent & _).
  apply Hent in Hin as [Hitems _].
  destruct items as [|f rest]; [done|]. injection Hfirst as ->.
  assert (ruleId first = k) as Hk.
  { assert (In first (by_rule k fs)) as Hf by (rewrite <- Hitems; by left).
    apply filter_In in Hf as [_ Heq]. by apply String.eqb_eq. }
  exists (severity_spec run k (first :: rest)).
  split; [by apply severity_spec_correct|]. split.
  - rewrite getEffectiveLevel_spec by by rewrite Hk. by rewrite Hk.
  - rewrite !getSeverityIcon_rank. unfold severity_rank.
    by rewrite toLowerCase_idem.
Qed.

(** X6 on the group of a rule whose first finding has no level of its own. *)
Lemma detail_level_matches_summary_witness :
  ResultsTable.severity (Some sample_shuffled) "sqli"
    [finding "sqli" None; finding "sqli" (Some "error")] =
    ResultsTable.VString "warning" /\
  ResultsTable.getEffectiveLevel (Some sample_shuffled) (finding "sqli" None) =
    Ok "warning".
Proof.
  destruct (detail_level_matches_summary (Some sample_shuffled)
              (results sample_shuffled) (ds_results (upload sample_shuffled))
              "sqli" [finding "sqli" None; finding "sqli" (Some "error")]
              (finding "sqli" None))
    as (s & Hs & Hl & _).
  - vm_compute. reflexivity.
  - vm_compute. do 2 right. left.
  - reflexivity.
  - assert (s = "warning") as -> by (vm_compute in Hs; by injection Hs).
    split; [exact Hs|exact Hl].
Defined.

(** X7. The icon and the sort weight of a severity word go together: the
    weight is at most 4, and the icon is the red cross for weight 0, the
    yellow triangle for 1, the blue mark for 2 and 3, the gray mark for 4;
    the empty word and a missing level get the gray mark. *)
Theorem icon_matches_weight (s : string) :
  exists n,
    ResultsTable.getSeverityWeight (ResultsTable.VString s) = Ok n /\
    n <= 4 /\
    ResultsTable.getSeverityIcon (Some s) = icon_of_rank n /\
    ResultsTable.getSeverityIcon None = icon_of_rank 4.
Proof.
  exists (severity_rank s). split; [apply getSeverityWeight_rank|].
  split; [apply severity_rank_bound|].
  split; [apply getSeverityIcon_rank|reflexivity].
Qed.

(** X8. The category resolver of the single-file table returns none
    exactly when no tag starts with the prefix; a category it returns starts
    with [CWE-], so it is not empty and names no inherited member; and it
    returns a category whenever the resolver of the comparison does. *)
Theorem table_resolver (tags : list string) :
  (ResultsTable.getCWEFromTags tags = None <-> none_such has_CWE_prefix tags) /\
  (forall c, ResultsTable.getCWEFromTags tags = Some c ->
     (exists rest, c = "CWE-" +:+ rest) /\
     JsString.truthy c = true /\ JsObject.inherited c = false) /\
  (forall c, ComparisonView.getCWEFromTags tags = Some c ->
     exists c', ResultsTable.getCWEFromTags tags = Some c').
Proof.
  split; [|split].
  - destruct (table_getCWEFromTags_spec tags) as [[Hnone ->]|(t & Ht & ->)].
    + done.
    + split; [done|]. intros Hnone. destruct (first_none_such _ _ _ Ht Hnone).
  - intros c [rest ->]%table_getCWEFromTags_form. eauto.
  - intros c Hc.
    destruct (table_getCWEFromTags_spec tags) as [[Hnone _]|(t & _ & ->)]; [|eauto].
    destruct (getCWEFromTags_spec tags) as [[_ Heq]|(t & Ht & _)]; [congruence|].
    destruct (first_none_such _ _ _ Ht Hnone).
Qed.

(** X9. On a tag list whose first tag with the prefix is exactly
    [CWE-<digits>] or [CWE:<digits>], the resolver of the single-file table
    and the resolver of the comparison return the same category
    [CWE-<digits>]. *)
Theorem resolvers_agree_on_plain_tags (tags : list string) (sep : ascii)
    (d : string) :
  first_such has_CWE_prefix tags
             (String "C" (String "W" (String "E" (String sep d)))) ->
  sep = "-"%char \/ sep = ":"%char ->
  digit_run d ->
  ResultsTable.getCWEFromTags tags = Some ("CWE-" +:+ d) /\
  ComparisonView.getCWEFromTags tags = Some ("CWE-" +:+ d).
Proof. apply getCWEFromTags_agree. Qed.

(** X9 on the tags [security], [CWE:89]. *)
Lemma resolvers_agree_on_plain_tags_witness :
  ResultsTable.getCWEFromTags ["security"; "CWE:89"] = Some "CWE-89" /\
  ComparisonView.getCWEFromTags ["security"; "CWE:89"] = Some "CWE-89".
Proof.
  apply (resolvers_agree_on_plain_tags ["security"; "CWE:89"] ":" "89").
  - exists ["security"], []. split; [reflexivity|]. split.
    + exists "89". by left.
    + constructor; [|constructor]. intros [rest [H|H]]; discriminate H.
  - by right.
  - split; [discriminate|reflexivity].
Defined.

(** X10. The CWE tab of the single-file table never throws on a stored
    dataset: every rule group whose rule has a category is filed under that
    category, the groups of a category in the order of the severity sort, and
    no category is listed twice or without a group. *)
Theorem table_groups_by_category (run : option Run) (fs : list Result)
    (g : JsObject.t (list Result)) :
  App.grouped fs = Ok g ->
  exists sorted groups,
    ResultsTable.sortedEntries run g = Ok sorted /\
    ResultsTable.cweGroups run g = Ok groups /\
    NoDup (JsObject.keys groups) /\
    forall c es,
      (c, es) ∈ JsObject.entries groups <->
      es = map to_entry (List.filter (in_table_category run c) sorted) /\
      es <> [].
Proof.
  intros Hg.
  destruct (sortedEntries_spec run g (grouped_plain_keys _ _ Hg))
    as (sorted & Hs & _).
  destruct (filing_entries (fun e => table_category run (fst e)) to_entry
              (ResultsTable.cweGroups_step run)
              (table_cweGroups_step run) (table_category_plain run) sorted)
    as (groups & Hgroups & Hnd & Hent & _).
  exists sorted, groups. split; [done|]. split; [|split; [done|exact Hent]].
  unfold ResultsTable.cweGroups. by rewrite Hs.
Qed.

(** X10 on a run whose rules have the categories 79, 89 and 22. *)
Lemma table_groups_by_category_witness :
  exists groups,
    ResultsTable.cweGroups (Some sample_shuffled)
      (ds_results (upload sample_shuffled)) = Ok groups /\
    JsObject.keys groups = ["CWE-79"; "CWE-89"; "CWE-22: Path Traversal"].
Proof.
  destruct (table_groups_by_category (Some sample_shuffled)
              (results sample_shuffled) (ds_results (upload sample_shuffled)))
    as (sorted & groups & _ & Hgroups & _); [vm_compute; reflexivity|].
  exists groups. split; [exact Hgroups|].
  vm_compute in Hgroups. injection Hgroups as <-. reflexivity.
Defined.


(** X12. Toggling a category flips whether that category is expanded and
    leaves every other category as it was, also for names an empty object
    inherits. *)
Theorem toggle_flips_one (cwe c : string) (prev : JsObject.t bool) :
  ComparisonView.isExpanded (ComparisonView.toggleCWE cwe prev) c =
    (if decide (c = cwe) then negb (ComparisonView.isExpanded prev cwe)
     else ComparisonView.isExpanded prev c) /\
  ComparisonView.isExpanded (ResultsTable.toggleCWE cwe prev) c =
    (if decide (c = cwe) then negb (ComparisonView.isExpanded prev cwe)
     else ComparisonView.isExpanded prev c).
Proof.
  assert (ComparisonView.isExpanded (ComparisonView.toggleCWE cwe prev) c =
          (if decide (c = cwe) then negb (ComparisonView.isExpanded prev cwe)
           else ComparisonView.isExpanded prev c)) as Hflip; [|by split].
  unfold ComparisonView.isExpanded, ComparisonView.toggleCWE, JsObject.get.
  cbv zeta. rewrite own_define.
  destruct (decide (c = cwe)) as [->|Hne]; [|done].
  destruct (JsObject.own prev cwe) as [b|]; [done|].
  by destruct (JsObject.inherited cwe).
Qed.

(** X13. Comparing two datasets in the other order gives the same
    categories, the same overlap in every row and the same average overlap;
    only the two counts of each row change places. *)
Theorem comparison_symmetric {num : Type} (arith : Arith num) (d1 d2 : Dataset) :
  exists (rows rows' : list (ComparisonView.Row num)) (avgs : list num),
    ComparisonView.compare [d1; d2] = Ok (rows, avgs) /\
    ComparisonView.compare [d2; d1] = Ok (rows', avgs) /\
    map ComparisonView.cwe rows' = map ComparisonView.cwe rows /\
    map ComparisonView.overlaps rows' = map ComparisonView.overlaps rows /\
    map ComparisonView.findings rows' =
      map reverse (map ComparisonView.findings rows).
Proof.
  destruct (cweGroups_Ok [d1; d2]) as (groups & Hgroups & Hlen & Hkeys).
  destruct groups as [|g1 [|g2 [|]]]; try done.
  pose proof Hgroups as Hall. apply exc_map_Ok_inv in Hall.
  apply Forall2_cons in Hall as [Hg1 [Hg2 _]%Forall2_cons].
  assert (ComparisonView.cweGroups [d2; d1] = Ok [g2; g1]) as Hgroups'.
  { unfold ComparisonView.cweGroups. simpl. by rewrite Hg2, Hg1. }
  assert (Forall plain_keys [g2; g1]) as Hkeys'.
  { apply Forall_cons in Hkeys as [? [? _]%Forall_cons]. by repeat constructor. }
  assert (ComparisonView.allCWEs [g2; g1] = ComparisonView.allCWEs [g1; g2])
    as Hcats by apply allCWEs_Permutation, perm_swap.
  set (rows := map (row_of (num := num) [g1; g2]) (ComparisonView.allCWEs [g1; g2])).
  set (rows' := map (row_of (num := num) [g2; g1]) (ComparisonView.allCWEs [g1; g2])).
  assert (map ComparisonView.overlaps rows' = map ComparisonView.overlaps rows)
    as Hover.
  { unfold rows, rows'. rewrite !map_map. apply map_ext. intros c.
    unfold row_of, ComparisonView.overlaps_of. simpl.
    by rewrite overlap_swap. }
  exists rows, rows', (ComparisonView.averageOverlaps rows).
  split; [|split; [|split; [|split]]].
  - unfold ComparisonView.compare. rewrite Hgroups. simpl.
    by rewrite (summaryData_Ok _ Hkeys).
  - unfold ComparisonView.compare. rewrite Hgroups'. simpl.
    rewrite (summaryData_Ok _ Hkeys'), Hcats. simpl.
    by rewrite (averageOverlaps_ext rows' rows Hover).
  - unfold rows, rows'. rewrite !map_map. by apply map_ext.
  - exact Hover.
  - unfold rows, rows'. rewrite !map_map. by apply map_ext.
Qed.





(** X16. The exported comparison of at least one dataset is a table whose
    header row and data rows all have [3n - 1] cells for [n] datasets, one
    data row per comparison row; the list of column widths has that length
    and the merged title ends at the last column.  The average row has as
    many cells, except without any comparison row, where it has [2n]. *)
Theorem export_shape {num : Type} (arith : Arith num) (toFixed1 : num -> string)
    (sarifs : list Dataset) :
  sarifs <> [] ->
  exists rows avgs title header body average,
    ComparisonView.compare sarifs = Ok (rows, avgs) /\
    ComparisonView.exportData toFixed1 (ComparisonView.toolNames sarifs) rows avgs =
      ComparisonView.Sheet
        ([[ComparisonView.CObject title];
          [ComparisonView.CObject JsObject.empty]; header] ++ body ++
         [[ComparisonView.CString ""]; average]) /\
    length body = length rows /\
    length header = (3 * length sarifs - 1)%nat /\
    Forall (fun cells => length cells = (3 * length sarifs - 1)%nat) body /\
    length average = match rows with
                     | [] => (2 * length sarifs)%nat
                     | _ => (3 * length sarifs - 1)%nat
                     end /\
    length (ComparisonView.colWidths (ComparisonView.toolNames sarifs)) =
      (3 * length sarifs - 1)%nat /\
    ComparisonView.merge_end (ComparisonView.toolNames sarifs) =
      (3 * length sarifs - 2)%nat.
Proof.
  intros Hne.
  assert (0 < length sarifs)%nat as Hn by (destruct sarifs; [done|simpl; lia]).
  destruct (cweGroups_Ok sarifs) as (groups & Hgroups & Hlen & Hkeys).
  pose proof (summaryData_Ok (num := num) _ Hkeys) as Hrows.
  set (rows := map (row_of (num := num) groups) (ComparisonView.allCWEs groups)) in *.
  destruct (length_headers (ComparisonView.toolNames sarifs)) as (Hh & Hd & Ho).
  unfold ComparisonView.toolNames in Hh, Hd, Ho. rewrite length_map in Hh, Hd, Ho.
  exists rows, (ComparisonView.averageOverlaps rows).
  unfold ComparisonView.exportData, ComparisonView.colWidths,
    ComparisonView.merge_end, ComparisonView.toolNames. cbv zeta.
  rewrite Hh, Hd, Ho.
  destruct (Z.ltb_spec (Z.of_nat (length sarifs) + Z.of_nat (length sarifs - 1) +
                        Z.of_nat (length sarifs - 1) - 1) 0) as [Hneg|_]; [lia|].
  do 4 eexists. split.
  { unfold ComparisonView.compare. rewrite Hgroups. simpl. by rewrite Hrows. }
  split; [reflexivity|].
  split; [by rewrite length_map|].
  split; [simpl; rewrite length_map, !length_app, Hh, Hd, Ho; lia|].
  split.
  { apply list.Forall_forall. intros cells (row & -> & Hrow)%list_elem_of_fmap.
    destruct (row_widths _ _ _ Hrows Hrow) as (Hf & Hdl & Hov).
    simpl. rewrite !length_app, !length_map, Hf, Hdl, Hov, Hlen. lia. }
  split.
  { simpl. rewrite !length_app, !length_replicate, length_map.
    rewrite length_averageOverlaps_any.
    destruct rows as [|row0 rows'] eqn:Hr; [lia|].
    destruct (row_widths _ _ row0 Hrows) as (_ & _ & Hov); [left|].
    rewrite Hov, Hlen. lia. }
  split; [simpl; rewrite length_replicate; lia|lia].
Qed.

(** X16 on two datasets with three categories. *)
Lemma export_shape_witness :
  exists rows avgs data,
    ComparisonView.compare sample_overlap = Ok (rows, avgs) /\
    ComparisonView.exportData (fun _ : number => "0.0")
      (ComparisonView.toolNames sample_overlap) rows avgs =
      ComparisonView.Sheet data /\
    map length data = [1; 1; 5; 5; 5; 5; 1; 5]%nat.
Proof.
  destruct (export_shape exact (fun _ : number => "0.0") sample_overlap)
    as (rows & avgs & title & header & body & average &
        Hc & He & Hb & Hh & Hbody & Ha & _); [discriminate|].
  assert (length (match ComparisonView.compare (num := number) sample_overlap with
                  | Ok p => fst p
                  | TypeError => []
                  end) = 3%nat) as Hlen by (vm_compute; reflexivity).
  rewrite Hc in Hlen. cbn [fst] in Hlen.
  exists rows, avgs. eexists. split; [exact Hc|]. split; [exact He|].
  destruct rows as [|r1 [|r2 [|r3 [|]]]]; try discriminate Hlen.
  destruct body as [|b1 [|b2 [|b3 [|]]]]; try discriminate Hb.
  apply Forall_cons in Hbody as [H1 [H2 [H3 _]%Forall_cons]%Forall_cons].
  simpl. rewrite Hh, H1, H2, H3, Ha. reflexivity.
Defined.

(** X17. The export throws a RangeError exactly when it is given no tool
    name, whatever the rows and averages. *)
Theorem export_throws_without_tools {num : Type} (toFixed1 : num -> string)
    (toolNames : list string) (rows : list (ComparisonView.Row num))
    (avgs : list num) :
  ComparisonView.exportData toFixed1 toolNames rows avgs =
    ComparisonView.RangeError <-> toolNames = [].
Proof.
  unfold ComparisonView.exportData. cbv zeta.
  destruct (length_headers toolNames) as (-> & -> & ->).
  destruct (Z.ltb_spec (Z.of_nat (length toolNames) +
                        Z.of_nat (length toolNames - 1) +
                        Z.of_nat (length toolNames - 1) - 1) 0) as [Hneg|Hpos].
  - split; [|done]. intros _. destruct toolNames; [done|simpl in Hneg; lia].
  - split; [done|]. intros ->. simpl in Hpos. lia.
Qed.

(** X18. In a comparison row, the delta between two consecutive counts
    [a] and [b] is red when [a < b], green when [b < a] and gray when they are
    equal, it carries a plus sign exactly when [a < b], and the detail panel
    of the category shows the same value in the same colour. *)
Theorem delta_colours groups rows row (i a b : nat) :
  ComparisonView.summaryData groups = Ok rows -> row ∈ rows ->
  ComparisonView.findings row !! i = Some a ->
  ComparisonView.findings row !! S i = Some b ->
  exists delta,
    ComparisonView.deltas row !! i = Some delta /\
    ComparisonView.delta_tone delta = tone_of_counts a b /\
    (ComparisonView.delta_sign delta = "+" <-> a < b) /\
    ComparisonView.panel_deltas (ComparisonView.findings row) !! i =
      Some (Some (tone_of_counts a b, delta)).
Proof.
  intros Hrows Hrow Ha Hb.
  destruct (summaryData_row _ _ _ Hrows Hrow) as (_ & -> & _).
  exists (Num (Qc_of_Z (Z.of_nat b - Z.of_nat a))).
  split; [by apply deltas_of_lookup|].
  split; [apply delta_tone_counts|].
  split; [apply delta_sign_counts|by apply panel_deltas_lookup].
Qed.

(** X18 at the counts (5,8) and (8,5): red and green. *)
Lemma delta_colours_witness :
  exists r1 r2 x1 x2,
    rows_of sample_delta = [r1; r2] /\
    map ComparisonView.findings [r1; r2] = [[5; 8]; [8; 5]]%nat /\
    ComparisonView.deltas r1 !! 0%nat = Some x1 /\
    ComparisonView.deltas r2 !! 0%nat = Some x2 /\
    ComparisonView.panel_deltas (ComparisonView.findings r1) !! 0%nat =
      Some (Some (ComparisonView.Red, x1)) /\
    ComparisonView.panel_deltas (ComparisonView.findings r2) !! 0%nat =
      Some (Some (ComparisonView.Green, x2)).
Proof.
  assert (ComparisonView.summaryData (groups_of sample_delta) =
          Ok (rows_of sample_delta)) as Hrows by reflexivity.
  assert (exists r1 r2,
            rows_of sample_delta = [r1; r2] /\
            ComparisonView.findings r1 = [5; 8]%nat /\
            ComparisonView.findings r2 = [8; 5]%nat)
    as (r1 & r2 & HR & F1 & F2).
  { do 2 eexists. split; [vm_compute; reflexivity|]. by split. }
  destruct (delta_colours _ _ r1 0 5 8 Hrows)%nat as (x1 & E1 & _ & _ & P1);
    [rewrite HR; repeat constructor|by rewrite F1..|].
  destruct (delta_colours _ _ r2 0 8 5 Hrows)%nat as (x2 & E2 & _ & _ & P2);
    [rewrite HR; repeat constructor|by rewrite F2..|].
  exists r1, r2, x1, x2. split; [exact HR|].
  split; [cbn [map]; by rewrite F1, F2|].
  split; [exact E1|]. split; [exact E2|]. split; [exact P1|exact P2].
Defined.

(** X19. In the CWE tab of the single-file table, the totals shown next to
    the categories add up to the number of stored findings whose rule has a
    category; that is never more than the total of the summary. *)
Theorem table_totals_conserved (run : option Run) (fs : list Result)
    (g : JsObject.t (list Result)) :
  App.grouped fs = Ok g ->
  exists groups,
    ResultsTable.cweGroups run g = Ok groups /\
    sum_list (map (fun kv => ResultsTable.totalFindings (snd kv))
                  (JsObject.entries groups)) =
      table_categorized_findings run g /\
    table_categorized_findings run g <= ResultsTable.totalResults g.
Proof.
  intros Hg.
  destruct (sortedEntries_spec run g (grouped_plain_keys _ _ Hg))
    as (sorted & Hs & Hperm & _).
  destruct (filing_entries (fun e => table_category run (fst e)) to_entry
              (ResultsTable.cweGroups_step run)
              (table_cweGroups_step run) (table_category_plain run) sorted)
    as (groups & Hgroups & _ & _ & Hsize).
  exists groups. split; [unfold ResultsTable.cweGroups; by rewrite Hs|].
  split.
  - transitivity (weighted_size entry_size groups).
    { unfold weighted_size, JsObject.entries. f_equal. apply map_ext.
      intros [c es]. apply totalFindings_size. }
    rewrite Hsize. unfold table_categorized_findings, JsObject.entries.
    match goal with
    | |- sum_list (map ?F _) = _ =>
        assert (map F sorted ≡ₚ map F g) as Hp by apply Permutation_map, Hperm
    end.
    by rewrite Hp.
  - rewrite totalResults_total_size.
    unfold table_categorized_findings, total_size, JsObject.entries,
      JsObject.values.
    clear. induction g as [|[k items] g IH]; simpl; [done|].
    destruct (table_category run k); lia.
Qed.

(** X19 on a run with five findings, one of a rule without category. *)
Lemma table_totals_conserved_witness :
  exists groups,
    ResultsTable.cweGroups (Some sample_shuffled)
      (ds_results (upload sample_shuffled)) = Ok groups /\
    map (fun kv => ResultsTable.totalFindings (snd kv)) (JsObject.entries groups) =
      [1; 2; 1]%nat /\
    table_categorized_findings (Some sample_shuffled)
      (ds_results (upload sample_shuffled)) = 4%nat.
Proof.
  destruct (table_totals_conserved (Some sample_shuffled)
              (results sample_shuffled) (ds_results (upload sample_shuffled)))
    as (groups & Hgroups & _ & _); [vm_compute; reflexivity|].
  exists groups. split; [exact Hgroups|].
  split; [|vm_compute; reflexivity].
  vm_compute in Hgroups. injection Hgroups as <-. reflexivity.
Defined.
